(** * Vengeful Vineyard front end: stores, edit-members modal and layout

    A shallow embedding of the client-side logic of the repository:
    - [Stores]: the Svelte stores of the old front end ([term], [users],
      [showInactive], [filterOnPunishments], the derived [filteredUsers]
      and the persistence of [users] in [localStorage]);
    - [Modal]: the React component [EditGroupMembersModal] that edits the
      members of a group (query callback, the three mutations, the confirm
      dialog and what is rendered);
    - [LayoutView]: the [Layout] component that installs the bearer header.

    Strings are byte strings. Arrays that the code copies and sorts in
    place live in an explicit heap, so that aliasing is visible. Functions
    of the host (JSON, localeCompare) and helpers of the repository that
    are not among the sources are parameters of the sections using them. *)

From stdpp Require Import gmap strings list pretty.
From Stdlib Require Import ZArith Ascii String Permutation Sorted.

Local Open Scope Z_scope.

(** ** Host string and array functions *)

Module JS.

(** [String.prototype.includes]: does [searchString] occur in [s]? *)
Fixpoint includes (s searchString : string) : bool :=
  String.prefix searchString s
  || match s with
     | EmptyString => false
     | String _ s' => includes s' searchString
     end.

Definition lower_ascii (c : ascii) : ascii :=
  let n := nat_of_ascii c in
  if ((65 <=? n) && (n <=? 90))%nat then ascii_of_nat (n + 32) else c.

(** [String.prototype.toLocaleLowerCase] on the ASCII range: the letters
    [A]..[Z] are mapped to [a]..[z], every other byte is kept. *)
Fixpoint toLocaleLowerCase (s : string) : string :=
  match s with
  | EmptyString => EmptyString
  | String c s' => String (lower_ascii c) (toLocaleLowerCase s')
  end.

(** Interpolation [${x}] of a possibly undefined string in a template. *)
Definition interpolate (s : option string) : string :=
  match s with
  | Some s => s
  | None => "undefined"
  end.

(** [Array.prototype.sort(comparefn)]: a stable sort; [x] is placed before
    the first element it does not compare greater than. *)
Section Sort.
Context {A : Type} (comparefn : A → A → Z).

Fixpoint insert_sorted (x : A) (l : list A) : list A :=
  match l with
  | [] => [x]
  | y :: l' => if comparefn x y <=? 0 then x :: y :: l' else y :: insert_sorted x l'
  end.

Definition sort (l : list A) : list A := foldr insert_sorted [] l.

End Sort.

(** [Array.prototype.at(0)]. *)
Definition at0 {A} (l : list A) : option A := l !! 0%nat.

End JS.

(** ** The Svelte stores *)

Module Stores.
Import JS.

Record Punishment := {
  punishment_type : Z;
  reason : string;
  amount : Z;
  punishment_id : Z;
  created_time : string;
  verified_time : option string;
  verified_by : option Z;
}.

Record User := {
  user_id : Z;
  first_name : string;
  last_name : string;
  email : string;
  active : bool;
  punishments : list Punishment;
}.

Record PunishmentType := {
  name : string;
  value : Z;
  logo_url : string;
  punishment_type_id : Z;
}.

(** What the [users] store holds: [JSON.parse] gives [null] or an array. *)
Inductive UsersValue :=
| UNull
| UArray (us : list User).

(** A [writable<boolean>()] starts out [undefined], which is falsy. *)
Definition truthy (b : option bool) : bool :=
  match b with
  | Some b => b
  | None => false
  end.

Definition hasCommonElement {A} `{EqDecision A} (arr1 arr2 : list A) : bool :=
  existsb (λ item, bool_decide (item ∈ arr2)) arr1.

(** The two predicates handed to [Array.prototype.filter]. The first
    returns the user object itself (always truthy) or [user.active]. *)
Definition visible (showInactive : option bool) (user : User) : bool :=
  if truthy showInactive then true else active user.

Definition matches (term : string) (user : User) : bool :=
  includes (toLocaleLowerCase (first_name user)) term
  || includes (toLocaleLowerCase (last_name user)) term.

(** The derived store; [None] is the [TypeError] of [null.filter]. *)
Definition filteredUsers (term : string) (users : UsersValue)
    (showInactive : option bool)
    (filterOnPunishments : option (list PunishmentType)) : option (list User) :=
  match users with
  | UNull => None
  | UArray us =>
      Some (List.filter (matches term) (List.filter (visible showInactive) us))
  end.

(** The values of the five stores, and the derived store read off them. *)
Record State := {
  term : string;
  users : UsersValue;
  showInactive : option bool;
  showPaid : option bool;
  filterOnPunishments : option (list PunishmentType);
}.

Definition derive (s : State) : option (list User) :=
  filteredUsers (term s) (users s) (showInactive s) (filterOnPunishments s).

(** Persistence of [users]. [JSON.stringify] and [JSON.parse] belong to the
    host; [JSON_parse] gives [None] when it throws or when the text does
    not denote a value of the declared type. *)
Section Persistence.
Context (JSON_stringify : UsersValue → string).
Context (JSON_parse : string → option UsersValue).

(** [localStorage.getItem] gives [null] for a missing key, and
    [JSON.parse] converts its argument to a string first. *)
Definition getItem (localStorage : gmap string string) (key : string) : option string :=
  localStorage !! key.

Definition toString (item : option string) : string :=
  match item with
  | Some s => s
  | None => "null"
  end.

(** The subscriber [(value) => (localStorage.users = JSON.stringify(value))]. *)
Definition persist (value : UsersValue) (localStorage : gmap string string)
  : gmap string string :=
  <["users" := JSON_stringify value]> localStorage.

Record Persisted := {
  store : UsersValue;
  localStorage : gmap string string;
}.

(** Evaluation of the module: the store is created from the parsed entry,
    and [subscribe] runs the subscriber once with the current value. *)
Definition init (ls : gmap string string) : option Persisted :=
  match JSON_parse (toString (getItem ls "users")) with
  | Some value => Some {| store := value; localStorage := persist value ls |}
  | None => None
  end.

(** [safe_not_equal] of svelte: objects always count as changed. *)
Definition safe_not_equal (a b : UsersValue) : bool :=
  match a, b with
  | UNull, UNull => false
  | _, _ => true
  end.

(** [users.set(v)]: subscribers run when the value counts as changed. *)
Definition set (v : UsersValue) (w : Persisted) : Persisted :=
  if safe_not_equal (store w) v
  then {| store := v; localStorage := persist v (localStorage w) |}
  else w.

(** The entry mirrors the store: what the subscriber maintains. *)
Definition synced (w : Persisted) : Prop :=
  localStorage w !! "users" = Some (JSON_stringify (store w)).

End Persistence.

End Stores.

(** ** Shapes of the API, after the zod schemas *)

Module User.

Record t := mk {
  ow_user_id : Z;
  user_id : string;
  first_name : string;
  last_name : string;
  email : string;
}.

End User.

Module PunishmentType.

Record t := mk {
  name : string;
  value : Z;
  emoji : string;
  punishment_type_id : string;
}.

End PunishmentType.

Module PunishmentReaction.

Record t := mk {
  punishment_reaction_id : string;
  punishment_id : string;
  created_by : string;
  created_at : string;
  emoji : string;
}.

#[global] Instance eq_dec : EqDecision t.
Proof. solve_decision. Defined.

End PunishmentReaction.

Module Punishment.

Record t := mk {
  punishment_type_id : string;
  group_id : option string;
  reason : string;
  reason_hidden : bool;
  amount : Z;
  punishment_id : string;
  created_at : string;
  created_by : string;
  created_by_name : string;
  paid : bool;
  paid_at : option string;
  marked_paid_by : option string;
  reactions : list PunishmentReaction.t;
}.

#[global] Instance eq_dec : EqDecision t.
Proof. solve_decision. Defined.

End Punishment.

Module GroupUser.

Record t := mk {
  ow_user_id : Z;
  user_id : string;
  first_name : string;
  last_name : string;
  email : string;
  group_id : string;
  ow_group_user_id : option Z;
  punishments : list Punishment.t;
  active : bool;
  permissions : list string;
}.

#[global] Instance eq_dec : EqDecision t.
Proof. solve_decision. Defined.

End GroupUser.

Module Group.

(** [M] is how the member array is held: the list itself in a payload
    that has just been decoded, a heap location in a live object. *)
Record t (M : Type) := mk {
  name : string;
  name_short : string;
  rules : string;
  image : string;
  ow_group_id : option Z;
  group_id : string;
  punishment_types : gmap string PunishmentType.t;
  members : M;
  join_requests : list User.t;
  roles : list (string * string);
  permissions : gmap string (list string);
}.

Arguments mk {M}.
Arguments name {M}.
Arguments name_short {M}.
Arguments rules {M}.
Arguments image {M}.
Arguments ow_group_id {M}.
Arguments group_id {M}.
Arguments punishment_types {M}.
Arguments members {M}.
Arguments join_requests {M}.
Arguments roles {M}.
Arguments permissions {M}.

Definition with_members {M N} (g : t M) (m : N) : t N :=
  mk (name g) (name_short g) (rules g) (image g) (ow_group_id g) (group_id g)
     (punishment_types g) m (join_requests g) (roles g) (permissions g).

End Group.

(** ** The edit-members modal *)

Module Modal.
Import JS.

Abbreviation loc := nat (only parsing).
Abbreviation Heap := (gmap nat (list GroupUser.t)) (only parsing).
Abbreviation GroupPermissions := (gmap string (list string)) (only parsing).
Abbreviation GroupRole := (string * string)%type (only parsing).

Inductive NotificationType := success | error.

Record Notification := {
  type : NotificationType;
  title : option string;
  text : string;
}.

(** [VengefulApiError]: the rejection of a request, with the payload of
    the backend under [response.data]. *)
Record ErrorData := { detail : string }.
Record ErrorResponse := { data : ErrorData }.
Record VengefulApiError := { response : ErrorResponse }.

Inductive Mutation := TransferOwnership | RemoveMember | ChangeRole.

(** The calls made through axios, by URL helper and arguments. *)
Inductive Request :=
| PostTransferGroupOwnership (group_id user_id : string)
| DeleteGroupMember (group_id user_id : string)
| PatchGroupMemberPermissions (group_id user_id : string) (privilege : string).

Definition QueryKey : Type := string * option string.

Inductive ConfirmModalType := INPUT | YESNO.

(** The three [onClose] closures of the component, all of the form
    [(retval) => { if (retval) { mutate() } }]. *)
Inductive OnClose := IfConfirmed (m : Mutation).

Record ConfirmModalOptions := {
  primaryButtonLabel : option string;
  cancelButtonLabel : option string;
  inputKeyword : option string;
  message : option string;
  onClose : OnClose;
}.

Record ConfirmModal := {
  confirmOpen : bool;
  confirmType : option ConfirmModalType;
  confirmOptions : option ConfirmModalOptions;
}.

Record ListboxOption := {
  label : string;
  value : string;
  disabled : bool;
}.

(** State of the component and of what it acts on: the heap of arrays, the
    data of the [groupLeaderboard] query, the [useState] cells, the confirm
    dialog, the notification, and the logs of cache invalidations and of
    requests sent. *)
Record State := {
  heap : Heap;
  groupData : option (Group.t loc);
  members : loc;
  selectedPerson : option GroupUser.t;
  currentRole : string;
  currentRolesOptions : list ListboxOption;
  currentUserRole : string;
  confirmModal : ConfirmModal;
  notification : option Notification;
  invalidated : list QueryKey;
  requests : list Request;
}.

(** The contexts the component reads: the group chosen in the navigation
    (an object of its own, of which only [group_id] is read here) and the
    current user. *)
Record CurrentUser := { current_user_id : string }.

Record Env := {
  selectedGroup : option (Group.t (list GroupUser.t));
  currentUser : CurrentUser;
}.

Definition setHeap (h : Heap) (st : State) : State :=
  {| heap := h; groupData := groupData st; members := members st;
     selectedPerson := selectedPerson st; currentRole := currentRole st;
     currentRolesOptions := currentRolesOptions st;
     currentUserRole := currentUserRole st; confirmModal := confirmModal st;
     notification := notification st; invalidated := invalidated st;
     requests := requests st |}.

Definition setGroupData (g : option (Group.t loc)) (st : State) : State :=
  {| heap := heap st; groupData := g; members := members st;
     selectedPerson := selectedPerson st; currentRole := currentRole st;
     currentRolesOptions := currentRolesOptions st;
     currentUserRole := currentUserRole st; confirmModal := confirmModal st;
     notification := notification st; invalidated := invalidated st;
     requests := requests st |}.

Definition setMembers (m : loc) (st : State) : State :=
  {| heap := heap st; groupData := groupData st; members := m;
     selectedPerson := selectedPerson st; currentRole := currentRole st;
     currentRolesOptions := currentRolesOptions st;
     currentUserRole := currentUserRole st; confirmModal := confirmModal st;
     notification := notification st; invalidated := invalidated st;
     requests := requests st |}.

Definition setSelectedPerson (p : option GroupUser.t) (st : State) : State :=
  {| heap := heap st; groupData := groupData st; members := members st;
     selectedPerson := p; currentRole := currentRole st;
     currentRolesOptions := currentRolesOptions st;
     currentUserRole := currentUserRole st; confirmModal := confirmModal st;
     notification := notification st; invalidated := invalidated st;
     requests := requests st |}.

Definition setCurrentRole (r : string) (st : State) : State :=
  {| heap := heap st; groupData := groupData st; members := members st;
     selectedPerson := selectedPerson st; currentRole := r;
     currentRolesOptions := currentRolesOptions st;
     currentUserRole := currentUserRole st; confirmModal := confirmModal st;
     notification := notification st; invalidated := invalidated st;
     requests := requests st |}.

Definition setCurrentRolesOptions (o : list ListboxOption) (st : State) : State :=
  {| heap := heap st; groupData := groupData st; members := members st;
     selectedPerson := selectedPerson st; currentRole := currentRole st;
     currentRolesOptions := o;
     currentUserRole := currentUserRole st; confirmModal := confirmModal st;
     notification := notification st; invalidated := invalidated st;
     requests := requests st |}.

Definition setCurrentUserRole (r : string) (st : State) : State :=
  {| heap := heap st; groupData := groupData st; members := members st;
     selectedPerson := selectedPerson st; currentRole := currentRole st;
     currentRolesOptions := currentRolesOptions st;
     currentUserRole := r; confirmModal := confirmModal st;
     notification := notification st; invalidated := invalidated st;
     requests := requests st |}.

Definition setConfirmModal (c : ConfirmModal) (st : State) : State :=
  {| heap := heap st; groupData := groupData st; members := members st;
     selectedPerson := selectedPerson st; currentRole := currentRole st;
     currentRolesOptions := currentRolesOptions st;
     currentUserRole := currentUserRole st; confirmModal := c;
     notification := notification st; invalidated := invalidated st;
     requests := requests st |}.

Definition setNotification (n : Notification) (st : State) : State :=
  {| heap := heap st; groupData := groupData st; members := members st;
     selectedPerson := selectedPerson st; currentRole := currentRole st;
     currentRolesOptions := currentRolesOptions st;
     currentUserRole := currentUserRole st; confirmModal := confirmModal st;
     notification := Some n; invalidated := invalidated st;
     requests := requests st |}.

(** [queryClient.invalidateQueries({ queryKey })]. *)
Definition invalidateQueries (k : QueryKey) (st : State) : State :=
  {| heap := heap st; groupData := groupData st; members := members st;
     selectedPerson := selectedPerson st; currentRole := currentRole st;
     currentRolesOptions := currentRolesOptions st;
     currentUserRole := currentUserRole st; confirmModal := confirmModal st;
     notification := notification st; invalidated := k :: invalidated st;
     requests := requests st |}.

(** A call through axios: the request is sent. *)
Definition send (r : Request) (st : State) : State :=
  {| heap := heap st; groupData := groupData st; members := members st;
     selectedPerson := selectedPerson st; currentRole := currentRole st;
     currentRolesOptions := currentRolesOptions st;
     currentUserRole := currentUserRole st; confirmModal := confirmModal st;
     notification := notification st; invalidated := invalidated st;
     requests := r :: requests st |}.

(** Arrays in the heap: reading, the spread copy [[...a]] and the in-place
    [a.sort(comparefn)]. *)
Definition read (h : Heap) (l : loc) : list GroupUser.t := default [] (h !! l).

Definition alloc (a : list GroupUser.t) (h : Heap) : loc * Heap :=
  let l := fresh (dom h) in (l, <[l := a]> h).

Definition spread (l : loc) (h : Heap) : loc * Heap := alloc (read h l) h.

Definition sortInPlace (comparefn : GroupUser.t → GroupUser.t → Z) (l : loc) (h : Heap) : Heap :=
  <[l := sort comparefn (read h l)]> h.

(** The component proper. [localeCompare] is the host's collation; the
    helpers [hasPermission] and [canGiveRole] of [helpers/permissions] are
    not among the sources and are taken as they are called. *)
Section Component.
Context (localeCompare : string → string → Z).
Context (hasPermission : GroupPermissions → string → string → bool).
Context (canGiveRole : list GroupRole → GroupPermissions → string → string → bool).
Context (env : Env).

(** The template [`${a.first_name} ${a.last_name}`]. *)
Definition fullName (a : GroupUser.t) : string :=
  GroupUser.first_name a +:+ " " +:+ GroupUser.last_name a.

Definition compareMembers (a b : GroupUser.t) : Z :=
  localeCompare (fullName a) (fullName b).

(** [selectedPerson?.user_id === currentUser.user_id] *)
Definition isCurrentUserSelected (st : State) : bool :=
  bool_decide (GroupUser.user_id <$> selectedPerson st
               = Some (current_user_id (currentUser env))).

(** The callback given to [useGroupLeaderboard], run with the fetched
    group when the query resolves. *)
Definition onGroupLeaderboard (group : Group.t loc) (st : State) : State :=
  let '(newMembers, h) := spread (Group.members group) (heap st) in
  let h := sortInPlace compareMembers newMembers h in
  let st := setMembers newMembers (setHeap h st) in
  let newSelectedPerson :=
    List.find
      (λ member, bool_decide (Some (GroupUser.user_id member)
                              = GroupUser.user_id <$> selectedPerson st))
      (read h newMembers) in
  setSelectedPerson
    (match newSelectedPerson with
     | Some p => Some p
     | None => read h newMembers !! 0%nat
     end) st.

(** First effect, on [selectedPerson]: the role shown and the options of
    the role list box. *)
Definition rolesEffect (st : State) : State :=
  match selectedPerson st with
  | None => st
  | Some person =>
      let role := default "" (at0 (GroupUser.permissions person)) in
      let groupRoles := default [] (Group.roles <$> groupData st) in
      let groupPermissions := default ∅ (Group.permissions <$> groupData st) in
      let isCurrentUser :=
        bool_decide (GroupUser.user_id person = current_user_id (currentUser env)) in
      let newRolesOptions :=
        map (λ '(roleName, rolePermission),
               let canGiveRoleCheck :=
                 canGiveRole groupRoles groupPermissions rolePermission
                   (currentUserRole st) in
               {| label := roleName;
                  value := rolePermission;
                  disabled :=
                    (isCurrentUser
                     && (bool_decide (currentUserRole st = "group.owner")
                         || negb canGiveRoleCheck))
                    || (negb isCurrentUser && negb canGiveRoleCheck) |})
            groupRoles in
      setCurrentRolesOptions newRolesOptions (setCurrentRole role st)
  end.

(** The role of the current user in the group data:
    [groupData?.members.find(...)?.permissions.at(0) ?? ""]. *)
Definition roleOfCurrentUser (st : State) : string :=
  let found :=
    match groupData st with
    | Some g =>
        List.find
          (λ member, bool_decide (GroupUser.user_id member
                                  = current_user_id (currentUser env)))
          (read (heap st) (Group.members g))
    | None => None
    end in
  default "" (found ≫= λ member, at0 (GroupUser.permissions member)).

(** Second effect, on [currentUser] and [groupData]. *)
Definition currentUserRoleEffect (st : State) : State :=
  setCurrentUserRole (roleOfCurrentUser st) st.

Definition queryKey : QueryKey :=
  ("groupLeaderboard", Group.group_id <$> selectedGroup env).

Definition selectedGroupId : string := default "" (Group.group_id <$> selectedGroup env).

Definition selectedPersonId (st : State) : string :=
  default "" (GroupUser.user_id <$> selectedPerson st).

(** The mutation functions. Each render hands [useMutation] a new
    function closed over the [selectedGroup], [selectedPerson] and
    [currentRole] of that render, and [mutate] runs the one of the latest
    render: the request is built from the state at the time of the call. *)
Definition mutationFn (m : Mutation) (st : State) : Request :=
  match m with
  | TransferOwnership =>
      PostTransferGroupOwnership selectedGroupId (selectedPersonId st)
  | RemoveMember =>
      DeleteGroupMember selectedGroupId (selectedPersonId st)
  | ChangeRole =>
      PatchGroupMemberPermissions selectedGroupId (selectedPersonId st) (currentRole st)
  end.

Definition mutate (m : Mutation) (st : State) : State := send (mutationFn m st) st.

Definition transferOwnershipMutate : State → State := mutate TransferOwnership.
Definition removeMemberMutate : State → State := mutate RemoveMember.
Definition changeRoleMutate : State → State := mutate ChangeRole.

Definition successText (m : Mutation) : string :=
  match m with
  | TransferOwnership => "Lederskap ble overført"
  | RemoveMember => "Medlem ble fjernet"
  | ChangeRole => "Rolle ble endret"
  end.

Definition errorTitle (m : Mutation) : string :=
  match m with
  | TransferOwnership => "Lederskap kunne ikke overføres"
  | RemoveMember => "Medlem kunne ikke fjernes"
  | ChangeRole => "Rolle kunne ikke endres"
  end.

Definition onSuccess (m : Mutation) (st : State) : State :=
  setNotification {| type := success; title := None; text := successText m |}
    (invalidateQueries queryKey st).

Definition onError (m : Mutation) (e : VengefulApiError) (st : State) : State :=
  setNotification
    {| type := error; title := Some (errorTitle m);
       text := detail (data (response e)) |} st.

(** What is rendered of the buttons. *)
Record ButtonView := {
  buttonLabel : string;
  buttonDisabled : bool;
}.

Record View := {
  spinner : bool;
  changeRoleButton : option ButtonView;
  transferOwnershipButton : option ButtonView;
  removeMemberButton : option ButtonView;
}.

Definition render (st : State) : View :=
  match groupData st with
  | None =>
      {| spinner := true; changeRoleButton := None;
         transferOwnershipButton := None; removeMemberButton := None |}
  | Some groupData =>
      {| spinner := false;
         changeRoleButton :=
           Some {| buttonLabel := "Endre rolle";
                   buttonDisabled :=
                     negb (existsb (λ option, negb (disabled option))
                             (currentRolesOptions st))
                     || bool_decide
                          (currentRole st
                           = default "" (selectedPerson st
                                         ≫= λ p, at0 (GroupUser.permissions p))) |};
         transferOwnershipButton :=
           if hasPermission (Group.permissions groupData)
                "group.ownership.transfer" (currentUserRole st)
           then Some {| buttonLabel := "Overfør lederskap";
                        buttonDisabled := isCurrentUserSelected st |}
           else None;
         removeMemberButton :=
           if hasPermission (Group.permissions groupData)
                "group.members.remove" (currentUserRole st)
           then Some {| buttonLabel := "Fjern fra gruppa";
                        buttonDisabled := isCurrentUserSelected st |}
           else None |}
  end.

(** Modelled from the spec: the [Button] component is not among the
    sources; a button that is not rendered or that is disabled does not
    run its [onClick]. *)
Definition clickable (b : option ButtonView) : bool :=
  match b with
  | Some b => negb (buttonDisabled b)
  | None => false
  end.

Definition openConfirm (t : ConfirmModalType) (o : ConfirmModalOptions) (st : State) : State :=
  setConfirmModal
    {| confirmOpen := true; confirmType := Some t; confirmOptions := Some o |} st.

Definition onClickTransferOwnership (st : State) : State :=
  openConfirm INPUT
    {| primaryButtonLabel := Some "Overfør"; cancelButtonLabel := Some "Avbryt";
       inputKeyword := Some "Overfør"; message := None;
       onClose := IfConfirmed TransferOwnership |} st.

Definition onClickRemoveMember (st : State) : State :=
  openConfirm YESNO
    {| primaryButtonLabel := None; cancelButtonLabel := None;
       inputKeyword := None; message := None;
       onClose := IfConfirmed RemoveMember |} st.

Definition onClickChangeRole (st : State) : State :=
  if isCurrentUserSelected st
  then openConfirm YESNO
         {| primaryButtonLabel := None; cancelButtonLabel := None;
            inputKeyword := None;
            message := Some "Dersom du bytter rolle på deg selv vil du ikke selv ville gjenopprette den gamle rollen din";
            onClose := IfConfirmed ChangeRole |} st
  else changeRoleMutate st.

Definition runOnClose (c : OnClose) (retval : bool) (st : State) : State :=
  match c with
  | IfConfirmed TransferOwnership => if retval then transferOwnershipMutate st else st
  | IfConfirmed RemoveMember => if retval then removeMemberMutate st else st
  | IfConfirmed ChangeRole => if retval then changeRoleMutate st else st
  end.

(** Modelled from the spec: the confirm-modal context is not among the
    sources; a dialog that is open closes with a return value, affirmative
    or not, and hands it to the [onClose] of its options. *)
Definition closeConfirm (retval : bool) (st : State) : State :=
  let c := confirmModal st in
  if confirmOpen c
  then
    let st := setConfirmModal
                {| confirmOpen := false; confirmType := confirmType c;
                   confirmOptions := confirmOptions c |} st in
    match confirmOptions c with
    | Some o => runOnClose (onClose o) retval st
    | None => st
    end
  else st.

Inductive Settled :=
| Fulfilled
| Rejected (e : VengefulApiError).

(** What happens to the component: the query resolves with a decoded
    group, the user picks one of the listed members (a state that does
    not change runs no effect) or a role, clicks a button, a dialog
    closes, a request settles. After the query has resolved the two
    effects run in the order they are declared, the first one still
    seeing the role of the current user from before. *)
Inductive Event :=
| QueryResolved (group : Group.t (list GroupUser.t))
| SelectPerson (index : nat)
| ChooseRole (value : string)
| ClickChangeRole
| ClickTransferOwnership
| ClickRemoveMember
| ConfirmClosed (retval : bool)
| MutationSettled (m : Mutation) (r : Settled).

Definition handle (st : State) (ev : Event) : State :=
  match ev with
  | QueryResolved payload =>
      let '(l, h) := alloc (Group.members payload) (heap st) in
      let group := Group.with_members payload l in
      let st := setGroupData (Some group) (setHeap h st) in
      let st := onGroupLeaderboard group st in
      currentUserRoleEffect (rolesEffect st)
  | SelectPerson index =>
      match read (heap st) (members st) !! index with
      | Some p =>
          if bool_decide (selectedPerson st = Some p) then st
          else rolesEffect (setSelectedPerson (Some p) st)
      | None => st
      end
  | ChooseRole value => setCurrentRole value st
  | ClickChangeRole =>
      if clickable (changeRoleButton (render st)) then onClickChangeRole st else st
  | ClickTransferOwnership =>
      if clickable (transferOwnershipButton (render st))
      then onClickTransferOwnership st else st
  | ClickRemoveMember =>
      if clickable (removeMemberButton (render st))
      then onClickRemoveMember st else st
  | ConfirmClosed retval => closeConfirm retval st
  | MutationSettled m Fulfilled => onSuccess m st
  | MutationSettled m (Rejected e) => onError m e st
  end.

Definition run (st : State) (evs : list Event) : State := foldl handle st evs.

End Component.

(** The state on mount: [useState([])], nothing selected, no data yet. *)
Definition initial : State :=
  {| heap := {[ 0%nat := [] ]}; groupData := None; members := 0%nat;
     selectedPerson := None; currentRole := ""; currentRolesOptions := [];
     currentUserRole := "";
     confirmModal := {| confirmOpen := false; confirmType := None;
                        confirmOptions := None |};
     notification := None; invalidated := []; requests := [] |}.

(** The events that are the success of a mutation. *)
Definition isSuccess (ev : Event) : bool :=
  match ev with
  | MutationSettled _ Fulfilled => true
  | _ => false
  end.

(** Which mutation a request belongs to. *)
Definition mutationOf (r : Request) : Mutation :=
  match r with
  | PostTransferGroupOwnership _ _ => TransferOwnership
  | DeleteGroupMember _ _ => RemoveMember
  | PatchGroupMemberPermissions _ _ _ => ChangeRole
  end.

(** The reading of the specification of the order of the members: one
    stands before another exactly when its name compares less. *)
Definition precedesExactlyWhenLess (localeCompare : string → string → Z)
    (l : list GroupUser.t) : Prop :=
  ∀ i j x y, l !! i = Some x → l !! j = Some y →
    ((i < j)%nat ↔ localeCompare (fullName x) (fullName y) < 0).

(** Modelled from the spec: [hasPermission] of [helpers/permissions] is
    not among the sources; a role has a permission when the static table
    of the group lists the permission under the role. *)
Definition tableHasPermission (groupPermissions : GroupPermissions)
    (permission role : string) : bool :=
  bool_decide (permission ∈ default [] (groupPermissions !! role)).

End Modal.

(** ** The layout *)

Module LayoutView.
Import JS.

Inductive Navigator :=
| signinRedirect
| signinPopup
| signinSilent
| signoutRedirect
| signoutPopup
| signoutSilent.

Record OidcUser := { access_token : string }.

(** The part of the state of [useAuth] that the component reads. *)
Record AuthState := {
  activeNavigator : option Navigator;
  isLoading : bool;
  error : option string;
  isAuthenticated : bool;
  user : option OidcUser;
}.

Inductive Rendered :=
| SigningIn
| SigningOut
| Loading
| Failed
| Page.

(** [axios.defaults.headers.common] *)
Abbreviation Headers := (gmap string string) (only parsing).

Definition bearer (auth : AuthState) : string :=
  "Bearer " +:+ interpolate (access_token <$> user auth).

(** The component: what it renders and the default headers it leaves. *)
Definition Layout (auth : AuthState) (common : Headers) : Rendered * Headers :=
  match activeNavigator auth with
  | Some signinSilent => (SigningIn, common)
  | Some signoutRedirect => (SigningOut, common)
  | _ =>
      if isLoading auth then (Loading, common)
      else if bool_decide (is_Some (error auth)) then (Failed, common)
      else if isAuthenticated auth
           then (Page, <["Authorization" := bearer auth]> common)
           else (Page, common)
  end.

End LayoutView.

(** ** The filtered users as the specification words them *)

Module StoresSpec.
Import JS Stores.

(** A name contains the term as a case-insensitive substring: case is
    ignored on both sides. *)
Definition containsIgnoringCase (name term : string) : bool :=
  includes (toLocaleLowerCase name) (toLocaleLowerCase term).

(** The users that are active, or all of them when inactive ones are
    shown, whose first or last name contains the term, in their order. *)
Definition filteredUsers_spec (term : string) (users : list User)
    (showInactive : option bool) : list User :=
  List.filter
    (λ user, (active user || truthy showInactive)
             && (containsIgnoringCase (first_name user) term
                 || containsIgnoringCase (last_name user) term))
    users.

End StoresSpec.

(** ** Data for the examples *)

Module StoresExamples.
Import JS Stores.

Definition anna : User :=
  {| user_id := 1; first_name := "Anna"; last_name := "Berg";
     email := "anna@example.org"; active := true; punishments := [] |}.

Definition bo : User :=
  {| user_id := 2; first_name := "Bo"; last_name := "Dahl";
     email := "bo@example.org"; active := false; punishments := [] |}.

Definition vin : PunishmentType :=
  {| name := "vin"; value := 100; logo_url := ""; punishment_type_id := 1 |}.

(** A stand-in for the host's JSON, to run the persistence code on
    examples: values are printed as JSON text (names without characters
    to escape), and a text is read back by looking it up among the
    printed forms of the values of a table. *)
Definition quote : string := String (ascii_of_nat 34) EmptyString.

Definition quoted (s : string) : string := quote +:+ s +:+ quote.

Definition property (key value : string) : string := quoted key +:+ ":" +:+ value.

Definition commaSeparated (items : list string) : string :=
  match items with
  | [] => ""
  | item :: items => fold_left (λ acc i, acc +:+ "," +:+ i) items item
  end.

Definition nullable (s : option string) : string :=
  match s with
  | Some s => s
  | None => "null"
  end.

Definition printPunishment (p : Punishment) : string :=
  "{" +:+ commaSeparated
    [property "punishment_type" (pretty (punishment_type p));
     property "reason" (quoted (reason p));
     property "amount" (pretty (amount p));
     property "punishment_id" (pretty (punishment_id p));
     property "created_time" (quoted (created_time p));
     property "verified_time" (nullable (quoted <$> verified_time p));
     property "verified_by" (nullable (pretty <$> verified_by p))] +:+ "}".

Definition printUser (u : User) : string :=
  "{" +:+ commaSeparated
    [property "user_id" (pretty (user_id u));
     property "first_name" (quoted (first_name u));
     property "last_name" (quoted (last_name u));
     property "email" (quoted (email u));
     property "active" (if active u then "true" else "false");
     property "punishments"
       ("[" +:+ commaSeparated (map printPunishment (punishments u)) +:+ "]")]
  +:+ "}".

Definition sampleStringify (v : UsersValue) : string :=
  match v with
  | UNull => "null"
  | UArray us => "[" +:+ commaSeparated (map printUser us) +:+ "]"
  end.

Definition sampleTable : list UsersValue :=
  [UNull; UArray []; UArray [anna]; UArray [anna; bo]; UArray [bo]].

Definition sampleParse (text : string) : option UsersValue :=
  List.find (λ v, String.eqb (sampleStringify v) text) sampleTable.

(** The store and the storage after a first visit, with nothing stored. *)
Definition firstVisit : Persisted :=
  {| store := UNull; localStorage := {[ "users" := "null" ]} |}.

Definition written : UsersValue := UArray [anna; bo].

Definition afterWrites : Persisted :=
  set sampleStringify written
    (foldl (flip (set sampleStringify)) firstVisit [UArray []; UNull]).

End StoresExamples.

Module ModalExamples.
Import JS Modal.

(** A collation to run the examples with: strings compared byte by byte. *)
Definition codes (s : string) : list nat := map nat_of_ascii (list_ascii_of_string s).

Definition lexCompare (a b : string) : Z :=
  match list_compare Nat.compare (codes a) (codes b) with
  | Lt => -1
  | Eq => 0
  | Gt => 1
  end.

(** A stand-in for [canGiveRole] in the examples: a role can be given by
    who holds it in the table. *)
Definition sampleCanGiveRole (groupRoles : list (string * string))
    (groupPermissions : gmap string (list string)) (role current : string) : bool :=
  tableHasPermission groupPermissions role current.

Definition member (id first last : string) (role : list string) : GroupUser.t :=
  GroupUser.mk 0 id first last (id +:+ "@example.org") "g1" None [] true role.

Definition bob : GroupUser.t := member "bob" "Bob" "Berg" ["group.member"].
Definition cara : GroupUser.t := member "cara" "Cara" "Dahl" ["group.owner"].
Definition ola1 : GroupUser.t := member "ola1" "Ola" "Nordmann" ["group.member"].
Definition ola2 : GroupUser.t := member "ola2" "Ola" "Nordmann" ["group.member"].

Definition table : gmap string (list string) :=
  {[ "group.owner" := ["group.ownership.transfer"; "group.members.remove";
                       "group.admin"; "group.member"];
     "group.admin" := ["group.members.remove"; "group.member"] ]}.

Definition groupWith (ms : list GroupUser.t) : Group.t (list GroupUser.t) :=
  Group.mk "Vinstraff" "vin" "" "" None "g1" ∅ ms []
    [("Leder", "group.owner"); ("Admin", "group.admin"); ("Medlem", "group.member")]
    table.

(** Cara is the current user and leads the group. *)
Definition caraEnv : Env :=
  {| selectedGroup := Some (groupWith [cara; bob]);
     currentUser := {| current_user_id := "cara" |} |}.

Definition step := handle lexCompare tableHasPermission sampleCanGiveRole caraEnv.
Definition steps := run lexCompare tableHasPermission sampleCanGiveRole caraEnv.

Definition notFound : VengefulApiError :=
  {| response := {| data := {| detail := "Fant ikke brukeren" |} |} |}.

(** Bob is listed first and is the person selected once the group is
    there; Cara asks to remove him, or to hand him the group. *)
Definition askedToRemoveBob : State :=
  steps initial [QueryResolved (groupWith [cara; bob]); ClickRemoveMember].

Definition askedToTransferToBob : State :=
  steps initial [QueryResolved (groupWith [cara; bob]); ClickTransferOwnership].

(** While the dialog is open the leaderboard is fetched again, and Bob is
    no longer in the group. *)
Definition bobGone : Event := QueryResolved (groupWith [cara]).

Definition fourMembers : Group.t (list GroupUser.t) := groupWith [ola2; cara; ola1; bob].

Definition namesakes : Group.t (list GroupUser.t) := groupWith [ola1; ola2].

End ModalExamples.

Module LayoutExamples.
Import LayoutView.

Definition signedIn : AuthState :=
  {| activeNavigator := None; isLoading := false; error := None;
     isAuthenticated := true; user := Some {| access_token := "token-1" |} |}.

(** Signed in, with a silent sign-in under way. *)
Definition renewing : AuthState :=
  {| activeNavigator := Some signinSilent; isLoading := true; error := None;
     isAuthenticated := true; user := Some {| access_token := "token-1" |} |}.

End LayoutExamples.

(** ** Notions used to state further properties *)

Module Notions.
Import JS.

(** The bytes of a string. *)
Definition chars (s : string) : list ascii := list_ascii_of_string s.

(** The ASCII capital letters. *)
Definition isUpperCase (c : ascii) : bool :=
  ((65 <=? nat_of_ascii c) && (nat_of_ascii c <=? 90))%nat.

(** The default headers after the layout has rendered with each of the
    given states of authentication in turn. *)
Definition renders (auths : list LayoutView.AuthState) (common : gmap string string)
  : gmap string string :=
  foldl (λ headers auth, snd (LayoutView.Layout auth headers)) common auths.

(** The group a request is addressed to. *)
Definition requestGroup (r : Modal.Request) : string :=
  match r with
  | Modal.PostTransferGroupOwnership g _ => g
  | Modal.DeleteGroupMember g _ => g
  | Modal.PatchGroupMemberPermissions g _ _ => g
  end.

(** The events that are the query resolving. *)
Definition isQueryResolved (ev : Modal.Event) : bool :=
  match ev with
  | Modal.QueryResolved _ => true
  | _ => false
  end.

End Notions.

Module MoreExamples.
Import JS Modal ModalExamples.

(** The group has been fetched: Bob, first in the list, is selected. *)
Definition loaded : State := steps initial [QueryResolved (groupWith [cara; bob])].

(** Cara has then picked herself in the list. *)
Definition caraPicked : State := step loaded (SelectPerson 1%nat).

(** She has picked Bob again and chosen the admin role for him. *)
Definition adminChosenForBob : State :=
  steps caraPicked [SelectPerson 0%nat; ChooseRole "group.admin"].

Definition signedOut : LayoutView.AuthState :=
  {| LayoutView.activeNavigator := None; LayoutView.isLoading := false;
     LayoutView.error := None; LayoutView.isAuthenticated := false;
     LayoutView.user := None |}.

End MoreExamples.

(** * Properties *)

Section StoresFacts.
Import JS Stores StoresSpec StoresExamples.

Lemma prefix_nil (s : string) : String.prefix "" s = true.
Proof. by destruct s. Qed.

Lemma prefix_append (t post : string) : String.prefix t (t +:+ post) = true.
Proof.
  induction t as [|c t IH]; simpl.
  - apply prefix_nil.
  - destruct (Ascii.ascii_dec c c); [exact IH | done].
Qed.

Lemma prefix_inv (t s : string) :
  String.prefix t s = true → ∃ post, s = t +:+ post.
Proof.
  revert s. induction t as [|c t IH]; intros s H.
  - by exists s.
  - destruct s as [|d s]; simpl in H; [done|].
    destruct (Ascii.ascii_dec c d) as [->|]; [|done].
    destruct (IH _ H) as [post ->]. by exists post.
Qed.

(** [includes] is the substring test. *)
Lemma includes_correct (s t : string) :
  includes s t = true ↔ ∃ pre post, s = pre +:+ t +:+ post.
Proof.
  split.
  - induction s as [|c s IH]; intros H.
    + cbn [includes] in H. rewrite orb_false_r in H.
      apply prefix_inv in H as [post H]. by exists "", post.
    + cbn [includes] in H. apply orb_true_iff in H as [H|H].
      * apply prefix_inv in H as [post H]. by exists "", post.
      * destruct (IH H) as (pre & post & ->). by exists (String c pre), post.
  - intros (pre & post & ->). induction pre as [|c pre IH].
    + change ("" +:+ t +:+ post) with (t +:+ post).
      destruct (t +:+ post) eqn:E; cbn [includes]; rewrite <- E, prefix_append; done.
    + change (String c pre +:+ t +:+ post) with (String c (pre +:+ t +:+ post)).
      cbn [includes]. rewrite IH. apply orb_true_r.
Qed.

(** The derived store keeps, in their order, the users that pass both
    tests. *)
Lemma filteredUsers_filter term us showInactive f :
  filteredUsers term (UArray us) showInactive f
  = Some (List.filter (λ user, visible showInactive user && matches term user) us).
Proof.
  unfold filteredUsers. f_equal.
  induction us as [|u us IH]; simpl; [done|].
  destruct (visible showInactive u); simpl; rewrite IH; done.
Qed.

(** For a term that is already in lower case the store computes what
    the specification says. *)
Lemma filteredUsers_lowercase_term term us showInactive f :
  toLocaleLowerCase term = term →
  filteredUsers term (UArray us) showInactive f
  = Some (filteredUsers_spec term us showInactive).
Proof.
  intros Hterm. rewrite filteredUsers_filter. f_equal.
  unfold filteredUsers_spec. apply filter_ext. intros u.
  unfold visible, matches, containsIgnoringCase. rewrite Hterm.
  destruct (truthy showInactive), (active u); done.
Qed.

(** C1, at the input where the code departs from the claim: with the term
    [An] the user Anna is dropped by the store, although her first name
    contains the term when case is ignored, so that the specification
    keeps her. *)
Theorem filteredUsers_uppercase_term :
  filteredUsers "An" (UArray [anna; bo]) (Some false) None = Some []
  ∧ filteredUsers_spec "An" [anna; bo] (Some false) = [anna].
Proof. split; reflexivity. Qed.

(** C8: two states of the stores that agree on the term, the users and
    the show-inactive flag give the same filtered users, whatever their
    punishment-type filters are. *)
Theorem filteredUsers_ignores_filterOnPunishments (s1 s2 : State) :
  term s1 = term s2 →
  users s1 = users s2 →
  showInactive s1 = showInactive s2 →
  derive s1 = derive s2.
Proof.
  intros Ht Hu Hs. unfold derive. rewrite Ht, Hu, Hs.
  destruct (users s2); reflexivity.
Qed.

Lemma filteredUsers_ignores_filterOnPunishments_witness :
  derive {| term := "an"; users := UArray [anna; bo]; showInactive := Some true;
            showPaid := None; filterOnPunishments := None |}
  = derive {| term := "an"; users := UArray [anna; bo]; showInactive := Some true;
              showPaid := Some true; filterOnPunishments := Some [vin] |}.
Proof.
  apply filteredUsers_ignores_filterOnPunishments; reflexivity.
Defined.

End StoresFacts.

Section PersistenceFacts.
Import Stores StoresExamples.
Context (JSON_stringify : UsersValue → string).
Context (JSON_parse : string → option UsersValue).

Local Abbreviation init := (init JSON_stringify JSON_parse).
Local Abbreviation set := (set JSON_stringify).
Local Abbreviation synced := (synced JSON_stringify).

Lemma init_synced ls w : init ls = Some w → synced w.
Proof.
  unfold init. destruct (JSON_parse _); intros [= <-].
  apply lookup_insert_eq.
Qed.

Lemma set_synced v w : synced w → synced (set v w).
Proof.
  unfold set. destruct (safe_not_equal _ _); [|done].
  intros _. apply lookup_insert_eq.
Qed.

Lemma sets_synced vs w : synced w → synced (foldl (flip set) w vs).
Proof.
  revert w. induction vs as [|v vs IH]; intros w Hw; simpl; [done|].
  apply IH, set_synced, Hw.
Qed.

Lemma set_store v w : store (set v w) = v.
Proof.
  unfold set. destruct (store w) eqn:Ew, v; simpl; try done.
Qed.


End PersistenceFacts.


(** ** Sorting with a consistent comparison function *)

Section SortFacts.
Import JS.
Context {A : Type} (comparefn : A → A → Z).

Local Abbreviation sort := (sort comparefn).
Local Abbreviation insert_sorted := (insert_sorted comparefn).
Local Abbreviation le := (λ a b, comparefn a b <= 0).

Lemma insert_sorted_perm x l : insert_sorted x l ≡ₚ x :: l.
Proof.
  induction l as [|y l IH]; simpl; [done|].
  destruct (comparefn x y <=? 0); [done|].
  rewrite IH. apply Permutation_swap.
Qed.

Lemma sort_perm l : sort l ≡ₚ l.
Proof.
  induction l as [|x l IH]; simpl; [done|].
  unfold JS.sort in IH. by rewrite insert_sorted_perm, IH.
Qed.

Hypothesis antisym : ∀ a b, comparefn a b < 0 ↔ 0 < comparefn b a.
Hypothesis trans : ∀ a b c, comparefn a b <= 0 → comparefn b c <= 0 → comparefn a c <= 0.

Lemma insert_sorted_sorted x l :
  StronglySorted le l → StronglySorted le (insert_sorted x l).
Proof.
  induction 1 as [|y l Hl IH Hy]; simpl.
  - repeat constructor.
  - destruct (comparefn x y <=? 0) eqn:E.
    + apply Z.leb_le in E. constructor; [by constructor|].
      constructor; [done|].
      eapply Forall_impl; [exact Hy|]. intros z Hz. by eapply trans.
    + apply Z.leb_gt in E. constructor; [done|].
      rewrite insert_sorted_perm. constructor; [|done].
      apply antisym in E. lia.
Qed.

Lemma sort_sorted l : StronglySorted le (sort l).
Proof.
  induction l as [|x l IH]; simpl; [constructor|].
  by apply insert_sorted_sorted.
Qed.

Lemma sorted_lookup (l : list A) i j x y :
  StronglySorted le l → (i < j)%nat →
  l !! i = Some x → l !! j = Some y → comparefn x y <= 0.
Proof.
  intros Hl. revert i j. induction Hl as [|z l Hl IH Hz]; intros i j Hij Hi Hj.
  - done.
  - destruct j as [|j]; [lia|]. simpl in Hj. destruct i as [|i].
    + simpl in Hi. injection Hi as ->.
      rewrite Forall_forall in Hz. apply Hz, list_elem_of_lookup. eauto.
    + simpl in Hi. apply (IH i j); [lia|done..].
Qed.

(** In a sorted array an element that compares less stands before. *)
Lemma sorted_less_before (l : list A) i j x y :
  StronglySorted le l →
  l !! i = Some x → l !! j = Some y → comparefn x y < 0 → (i < j)%nat.
Proof.
  intros Hl Hi Hj Hlt.
  destruct (decide (i < j)%nat) as [|Hge]; [done|]. exfalso.
  destruct (decide (i = j)) as [->|Hne].
  - rewrite Hi in Hj. injection Hj as ->.
    pose proof (proj1 (antisym _ _) Hlt). lia.
  - assert (comparefn y x <= 0) by (apply (sorted_lookup l j i); [done|lia|done..]).
    pose proof (proj1 (antisym _ _) Hlt). lia.
Qed.

(** Stability: the elements that compare equal to a given one keep their
    order. *)
Lemma insert_sorted_stable (same : A) x l :
  List.filter (λ m, comparefn m same =? 0) (insert_sorted x l)
  = List.filter (λ m, comparefn m same =? 0) (x :: l).
Proof.
  induction l as [|y l IH]; [done|].
  cbn [JS.insert_sorted]. destruct (comparefn x y <=? 0) eqn:E; [done|].
  apply Z.leb_gt in E. cbn [List.filter]. rewrite IH. cbn [List.filter].
  destruct (comparefn x same =? 0) eqn:Ex; [|done].
  destruct (comparefn y same =? 0) eqn:Ey; [|done].
  exfalso. apply Z.eqb_eq in Ex, Ey.
  assert (comparefn same y <= 0).
  { destruct (Z.lt_trichotomy (comparefn same y) 0) as [?|[?|Hgt]]; [lia..|].
    apply antisym in Hgt. lia. }
  assert (comparefn x y <= 0) by (apply (trans x same y); lia).
  lia.
Qed.

Lemma sort_stable (same : A) l :
  List.filter (λ m, comparefn m same =? 0) (sort l)
  = List.filter (λ m, comparefn m same =? 0) l.
Proof.
  induction l as [|x l IH]; [done|].
  cbn [JS.sort foldr]. rewrite insert_sorted_stable.
  cbn [List.filter]. unfold JS.sort in IH. by rewrite IH.
Qed.

End SortFacts.

(** ** The edit-members modal *)

Section ModalFacts.
Import JS Modal.
Context (localeCompare : string → string → Z).
Context (hasPermission : gmap string (list string) → string → string → bool).
Context (canGiveRole :
  list (string * string) → gmap string (list string) → string → string → bool).
Context (env : Env).

Local Abbreviation handle := (handle localeCompare hasPermission canGiveRole env).
Local Abbreviation run := (run localeCompare hasPermission canGiveRole env).
Local Abbreviation render := (render hasPermission env).
Local Abbreviation rolesEffect := (rolesEffect canGiveRole env).
Local Abbreviation currentUserRoleEffect := (currentUserRoleEffect env).
Local Abbreviation onGroupLeaderboard := (onGroupLeaderboard localeCompare).
Local Abbreviation compareMembers := (compareMembers localeCompare).

Ltac unfold_handlers :=
  unfold Modal.handle, Modal.onGroupLeaderboard, Modal.rolesEffect,
    Modal.currentUserRoleEffect, Modal.onClickChangeRole,
    Modal.onClickTransferOwnership, Modal.onClickRemoveMember,
    Modal.closeConfirm, Modal.runOnClose, Modal.openConfirm,
    Modal.transferOwnershipMutate, Modal.removeMemberMutate,
    Modal.changeRoleMutate, Modal.mutate,
    Modal.onSuccess, Modal.onError, Modal.spread, Modal.alloc.

Ltac frame := unfold_handlers; simpl; repeat case_match; simpl; try done.

(** *** What the effects and the callback leave alone *)

Lemma rolesEffect_frame st :
  heap (rolesEffect st) = heap st
  ∧ groupData (rolesEffect st) = groupData st
  ∧ members (rolesEffect st) = members st
  ∧ selectedPerson (rolesEffect st) = selectedPerson st
  ∧ currentUserRole (rolesEffect st) = currentUserRole st.
Proof. frame. Qed.

Lemma currentUserRoleEffect_frame st :
  heap (currentUserRoleEffect st) = heap st
  ∧ groupData (currentUserRoleEffect st) = groupData st
  ∧ members (currentUserRoleEffect st) = members st
  ∧ selectedPerson (currentUserRoleEffect st) = selectedPerson st.
Proof. frame. Qed.

Lemma onGroupLeaderboard_heap (group : Group.t nat) st :
  let l := fresh (dom (heap st)) in
  let fetched := read (heap st) (Group.members group) in
  members (onGroupLeaderboard group st) = l
  ∧ heap (onGroupLeaderboard group st)
    = <[l := sort compareMembers fetched]> (heap st)
  ∧ groupData (onGroupLeaderboard group st) = groupData st.
Proof.
  unfold_handlers. simpl. repeat split.
  unfold sortInPlace, read. rewrite lookup_insert_eq. simpl.
  by rewrite insert_insert_eq.
Qed.

(** *** The logs of requests and of invalidations, event by event *)

Lemma handle_invalidated st ev :
  invalidated (handle st ev)
  = match ev with
    | MutationSettled _ Fulfilled => queryKey env :: invalidated st
    | _ => invalidated st
    end.
Proof. destruct ev; frame. Qed.

(** The mutation an event starts, if any. *)
Lemma handle_requests st ev :
  requests (handle st ev) = requests st
  ∨ (requests (handle st ev) = mutationFn env ChangeRole st :: requests st
     ∧ ev = ClickChangeRole
     ∧ isCurrentUserSelected env st = false)
  ∨ (∃ m o, requests (handle st ev) = mutationFn env m st :: requests st
     ∧ ev = ConfirmClosed true
     ∧ confirmOpen (confirmModal st) = true
     ∧ confirmOptions (confirmModal st) = Some o
     ∧ onClose o = IfConfirmed m).
Proof.
  destruct ev; try (left; frame; fail).
  - unfold Modal.handle. case_match; [|by left].
    unfold Modal.onClickChangeRole. case_match eqn:E; [by left|].
    right; left. done.
  - unfold Modal.handle, Modal.closeConfirm.
    destruct (confirmOpen (confirmModal st)) eqn:Eo; [|by left].
    destruct (confirmOptions (confirmModal st)) as [o|] eqn:Ec; [|by left].
    destruct (onClose o) as [m] eqn:Em.
    destruct retval; [|left; by destruct m].
    right; right. exists m, o. by destruct m.
Qed.

(** *** The role of the current user *)

Lemma roleOfCurrentUser_ext st1 st2 :
  heap st1 = heap st2 → groupData st1 = groupData st2 →
  roleOfCurrentUser env st1 = roleOfCurrentUser env st2.
Proof. unfold roleOfCurrentUser. by intros -> ->. Qed.

Lemma handle_role_frame st ev :
  (∀ payload, ev ≠ QueryResolved payload) →
  heap (handle st ev) = heap st
  ∧ groupData (handle st ev) = groupData st
  ∧ currentUserRole (handle st ev) = currentUserRole st.
Proof.
  intros Hev. destruct ev; try (frame; fail).
  by destruct (Hev group).
Qed.

(** In every state the component reaches, the role it holds for the
    current user is the one the group data gives. *)
Lemma currentUserRole_reached evs :
  currentUserRole (run initial evs) = roleOfCurrentUser env (run initial evs).
Proof.
  unfold Modal.run.
  assert (currentUserRole initial = roleOfCurrentUser env initial) as H by done.
  revert H. generalize initial. induction evs as [|ev evs IH]; intros st Hst; [done|].
  simpl. apply IH.
  destruct ev as [payload| | | | | | |];
    [unfold Modal.handle; destruct (alloc _ _) as [l h];
     unfold Modal.currentUserRoleEffect; done|..].
  all: match goal with
       | |- currentUserRole (Modal.handle _ _ _ _ _ ?ev) = _ =>
           destruct (handle_role_frame st ev) as (Hh & Hg & ->);
           [intros ? ?; discriminate|]
       end.
  all: rewrite Hst; symmetry; by apply roleOfCurrentUser_ext.
Qed.

(** *** Failing and succeeding mutations *)

(** C2: when the request of any of the three mutations is rejected, every
    part of the state other than the notification is as before; the
    invalidation log in particular, and so is what is rendered. *)
Theorem failed_mutation_changes_notification_only st m e :
  let st' := handle st (MutationSettled m (Rejected e)) in
  heap st' = heap st
  ∧ groupData st' = groupData st
  ∧ members st' = members st
  ∧ selectedPerson st' = selectedPerson st
  ∧ currentRole st' = currentRole st
  ∧ currentRolesOptions st' = currentRolesOptions st
  ∧ currentUserRole st' = currentUserRole st
  ∧ confirmModal st' = confirmModal st
  ∧ invalidated st' = invalidated st
  ∧ requests st' = requests st
  ∧ render st' = render st.
Proof. by repeat split. Qed.


Lemma replicate_middle {X} (n : nat) (x : X) (l : list X) :
  replicate n x ++ x :: l = x :: replicate n x ++ l.
Proof. induction n as [|n IH]; simpl; [done|]. by rewrite IH. Qed.

(** C6: the success of any of the three mutations adds the key of the
    leaderboard of the selected group to the invalidation log and leaves
    a success notification, and no other event touches the log: over a
    run the log grows by one such key for each success in it. *)
Theorem invalidation_on_success_only st :
  (∀ m, invalidated (handle st (MutationSettled m Fulfilled))
        = ("groupLeaderboard", Group.group_id <$> selectedGroup env) :: invalidated st
        ∧ notification (handle st (MutationSettled m Fulfilled))
          = Some {| type := success; title := None; text := successText m |})
  ∧ (∀ ev, isSuccess ev = false → invalidated (handle st ev) = invalidated st)
  ∧ (∀ evs, invalidated (run st evs)
            = replicate (List.length (List.filter isSuccess evs))
                ("groupLeaderboard", Group.group_id <$> selectedGroup env)
              ++ invalidated st).
Proof.
  split; [done|]. split.
  - intros ev Hev. rewrite handle_invalidated.
    destruct ev as [| | | | | | |m []]; done.
  - intros evs. revert st. induction evs as [|ev evs IH]; intros st; [done|].
    change (run st (ev :: evs)) with (run (handle st ev) evs).
    rewrite IH, handle_invalidated. cbn [List.filter].
    destruct ev as [| | | | | | |m []]; simpl; try done.
    apply replicate_middle.
Qed.

(** *** Buttons, permissions and the confirm dialog *)

Lemma cons_neq {X} (x : X) (l : list X) : l ≠ x :: l.
Proof. intros H. apply (f_equal (@List.length X)) in H. simpl in H. lia. Qed.

(** C5: the transfer-ownership and remove-member buttons are rendered
    exactly when the group data is there and [hasPermission] grants the
    role of the current user the permission of the button in the
    permission table of the group; a click on either button sends nothing
    and, when the button reacts, opens the confirm dialog; a request to
    transfer ownership or to remove a member is sent only as an open
    dialog with the matching [onClose] closes affirmatively; and in the
    states the component reaches the role held for the current user is
    the first permission the group data lists for that user. *)
Theorem buttons_gated_and_confirmed st :
  (is_Some (transferOwnershipButton (render st))
   ↔ ∃ g, groupData st = Some g
          ∧ hasPermission (Group.permissions g) "group.ownership.transfer"
              (currentUserRole st) = true)
  ∧ (is_Some (removeMemberButton (render st))
     ↔ ∃ g, groupData st = Some g
            ∧ hasPermission (Group.permissions g) "group.members.remove"
                (currentUserRole st) = true)
  ∧ requests (handle st ClickTransferOwnership) = requests st
  ∧ requests (handle st ClickRemoveMember) = requests st
  ∧ (clickable (transferOwnershipButton (render st)) = true →
     confirmOpen (confirmModal (handle st ClickTransferOwnership)) = true
     ∧ onClose <$> confirmOptions (confirmModal (handle st ClickTransferOwnership))
       = Some (IfConfirmed TransferOwnership))
  ∧ (clickable (removeMemberButton (render st)) = true →
     confirmOpen (confirmModal (handle st ClickRemoveMember)) = true
     ∧ onClose <$> confirmOptions (confirmModal (handle st ClickRemoveMember))
       = Some (IfConfirmed RemoveMember))
  ∧ (∀ ev r, requests (handle st ev) = r :: requests st →
       mutationOf r ≠ ChangeRole →
       ev = ConfirmClosed true
       ∧ confirmOpen (confirmModal st) = true
       ∧ onClose <$> confirmOptions (confirmModal st)
         = Some (IfConfirmed (mutationOf r)))
  ∧ (∀ evs, currentUserRole (run initial evs)
            = roleOfCurrentUser env (run initial evs)).
Proof.
  split; [|split].
  - unfold Modal.render. destruct (groupData st) as [g|]; simpl.
    + destruct (hasPermission _ _ _) eqn:E; split.
      * intros _. by exists g.
      * by intros _.
      * by intros [? ?].
      * intros (? & [= <-] & ?). congruence.
    + split; [by intros [? ?] | by intros (? & ? & _)].
  - unfold Modal.render. destruct (groupData st) as [g|]; simpl.
    + destruct (hasPermission _ "group.members.remove" _) eqn:E; split.
      * intros _. by exists g.
      * by intros _.
      * by intros [? ?].
      * intros (? & [= <-] & ?). congruence.
    + split; [by intros [? ?] | by intros (? & ? & _)].
  - split; [frame|]. split; [frame|].
    split; [|split; [|split]]; [| | |apply currentUserRole_reached].
    + intros Hc. unfold Modal.handle. by rewrite Hc.
    + intros Hc. unfold Modal.handle. by rewrite Hc.
    + intros ev r Hr Hm.
      destruct (handle_requests st ev)
        as [H|[(H & _)|(m & o & H & -> & Ho & Hc & Hm')]].
      * rewrite H in Hr. by apply cons_neq in Hr.
      * rewrite H in Hr. injection Hr as <-. done.
      * rewrite H in Hr. injection Hr as <-.
        rewrite Hc. simpl. rewrite Hm'. by destruct m.
Qed.

(** With the current user selected, both buttons are disabled where they
    are rendered, and a click on them changes nothing. *)
Lemma self_buttons_disabled st :
  isCurrentUserSelected env st = true →
  clickable (transferOwnershipButton (render st)) = false
  ∧ clickable (removeMemberButton (render st)) = false
  ∧ handle st ClickTransferOwnership = st
  ∧ handle st ClickRemoveMember = st.
Proof.
  intros Hsel.
  assert (clickable (transferOwnershipButton (render st)) = false) as Ht.
  { unfold Modal.render. repeat case_match; simpl; by rewrite ?Hsel. }
  assert (clickable (removeMemberButton (render st)) = false) as Hr.
  { unfold Modal.render. repeat case_match; simpl; by rewrite ?Hsel. }
  unfold Modal.handle. by rewrite Ht, Hr.
Qed.

End ModalFacts.

(** *** The members after the leaderboard query has resolved *)

Section MembersOrder.
Import JS Modal.
Context (localeCompare : string → string → Z).
Context (hasPermission : gmap string (list string) → string → string → bool).
Context (canGiveRole :
  list (string * string) → gmap string (list string) → string → string → bool).
Context (env : Env).

Local Abbreviation handle := (handle localeCompare hasPermission canGiveRole env).
Local Abbreviation compareMembers := (compareMembers localeCompare).

(** What the event does to the heap: the decoded member array is
    allocated, then its copy, which is sorted. *)
Lemma query_resolved_heap st payload :
  let st' := handle st (QueryResolved payload) in
  let l := fresh (dom (heap st)) in
  let l' := fresh (dom (<[l := Group.members payload]> (heap st))) in
  heap st' = <[l' := sort compareMembers (Group.members payload)]>
               (<[l := Group.members payload]> (heap st))
  ∧ members st' = l'
  ∧ groupData st' = Some (Group.with_members payload l)
  ∧ l ≠ l'.
Proof.
  intros st' l l'. subst st'. unfold Modal.handle, alloc. fold l.
  set (st1 := setGroupData _ _).
  destruct (rolesEffect_frame canGiveRole env
              (Modal.onGroupLeaderboard localeCompare (Group.with_members payload l) st1))
    as (Hh & Hg & Hm & _).
  destruct (currentUserRoleEffect_frame env
              (Modal.rolesEffect canGiveRole env
                 (Modal.onGroupLeaderboard localeCompare
                    (Group.with_members payload l) st1)))
    as (Hh' & Hg' & Hm' & _).
  destruct (onGroupLeaderboard_heap localeCompare (Group.with_members payload l) st1)
    as (Hm1 & Hh1 & Hg1).
  rewrite Hh', Hh, Hm', Hm, Hg', Hg, Hh1, Hm1, Hg1.
  subst st1. simpl. unfold read. rewrite lookup_insert_eq. simpl. fold l'.
  repeat split.
  intros Heq. pose proof (is_fresh (dom (<[l := Group.members payload]> (heap st)))) as Hf.
  fold l' in Hf. rewrite <- Heq in Hf. apply Hf.
  rewrite dom_insert_L. set_solver.
Qed.

(** C4, as the code has it: when the leaderboard query resolves, the
    members state becomes a sorted copy of the member list of the fetched
    group. It has the same members; a member whose name compares less than
    that of another stands before it; members whose names compare equal
    keep the order in which they were fetched; and the array of the
    fetched group, like every other array there was, is left as it is.
    The comparison of the host is taken to be consistent. *)
Theorem query_resolved_members_sorted st payload :
  (∀ a b, localeCompare a b < 0 ↔ 0 < localeCompare b a) →
  (∀ a b c, localeCompare a b <= 0 → localeCompare b c <= 0 → localeCompare a c <= 0) →
  let st' := handle st (QueryResolved payload) in
  let sorted := read (heap st') (members st') in
  sorted ≡ₚ Group.members payload
  ∧ (∀ i j x y, sorted !! i = Some x → sorted !! j = Some y →
       localeCompare (fullName x) (fullName y) < 0 → (i < j)%nat)
  ∧ (∀ same,
       List.filter (λ m, localeCompare (fullName m) (fullName same) =? 0) sorted
       = List.filter (λ m, localeCompare (fullName m) (fullName same) =? 0)
           (Group.members payload))
  ∧ (∃ g, groupData st' = Some g
          ∧ Group.members g ≠ members st'
          ∧ read (heap st') (Group.members g) = Group.members payload)
  ∧ (∀ l, is_Some (heap st !! l) → heap st' !! l = heap st !! l).
Proof.
  intros Hanti Htrans st' sorted.
  destruct (query_resolved_heap st payload) as (Hh & Hm & Hg & Hne).
  fold st' in Hh, Hm, Hg.
  assert (Hs : sorted = sort compareMembers (Group.members payload)).
  { subst sorted. unfold read. by rewrite Hh, Hm, lookup_insert_eq. }
  assert (Hanti' : ∀ a b, compareMembers a b < 0 ↔ 0 < compareMembers b a).
  { intros a b. apply Hanti. }
  assert (Htrans' : ∀ a b c, compareMembers a b <= 0 → compareMembers b c <= 0 →
                             compareMembers a c <= 0).
  { intros a b c. apply Htrans. }
  split; [|split; [|split; [|split]]].
  - rewrite Hs. apply sort_perm.
  - intros i j x y Hi Hj Hlt.
    apply (sorted_less_before compareMembers Hanti' sorted i j x y); try done.
    rewrite Hs. by apply sort_sorted.
  - intros same. rewrite Hs.
    apply (sort_stable compareMembers Hanti' Htrans' same).
  - exists (Group.with_members payload (fresh (dom (heap st)))).
    split; [done|]. rewrite Hm. split; [done|].
    unfold read. rewrite Hh. simpl.
    rewrite lookup_insert_ne by (intros E; by apply Hne).
    by rewrite lookup_insert_eq.
  - intros l Hl. rewrite Hh.
    assert (l ≠ fresh (dom (heap st))) as Hl1.
    { intros ->. apply (is_fresh (dom (heap st))). by apply elem_of_dom. }
    assert (l ≠ fresh (dom (<[fresh (dom (heap st)) := Group.members payload]> (heap st))))
      as Hl2.
    { intros E. pose proof (is_fresh (dom (<[fresh (dom (heap st)) := Group.members payload]> (heap st)))) as Hf.
      rewrite <- E in Hf. apply Hf. rewrite dom_insert_L.
      apply elem_of_union_r. by apply elem_of_dom. }
    rewrite lookup_insert_ne by done. by rewrite lookup_insert_ne.
Qed.

End MembersOrder.

(** *** The modal on examples *)

Section ModalRuns.
Import JS Modal ModalExamples.

Lemma nat_compare_trans (x y z : nat) (c : comparison) :
  Nat.compare x y = c → Nat.compare y z = c → Nat.compare x z = c.
Proof.
  destruct c; intros H1 H2.
  - apply Nat.compare_eq_iff in H1, H2. apply Nat.compare_eq_iff. lia.
  - apply Nat.compare_lt_iff in H1, H2. apply Nat.compare_lt_iff. lia.
  - apply Nat.compare_gt_iff in H1, H2. apply Nat.compare_gt_iff. lia.
Qed.

Lemma lexCompare_antisym (a b : string) : lexCompare a b < 0 ↔ 0 < lexCompare b a.
Proof.
  unfold lexCompare.
  rewrite (list_compare_antisym Nat.compare Nat.compare_eq_iff (codes a) (codes b))
    by (intros x y; apply Nat.compare_antisym).
  destruct (list_compare Nat.compare (codes a) (codes b)); simpl; lia.
Qed.

Lemma lexCompare_trans (a b c : string) :
  lexCompare a b <= 0 → lexCompare b c <= 0 → lexCompare a c <= 0.
Proof.
  unfold lexCompare.
  destruct (list_compare Nat.compare (codes a) (codes b)) eqn:Eab; [| |lia];
    destruct (list_compare Nat.compare (codes b) (codes c)) eqn:Ebc; try lia;
    intros _ _.
  - apply (list_compare_refl Nat.compare Nat.compare_eq_iff) in Eab.
    rewrite Eab, Ebc. lia.
  - apply (list_compare_refl Nat.compare Nat.compare_eq_iff) in Eab.
    rewrite Eab, Ebc. lia.
  - apply (list_compare_refl Nat.compare Nat.compare_eq_iff) in Ebc.
    rewrite <- Ebc, Eab. lia.
  - rewrite (list_compare_trans Nat.compare Nat.compare_eq_iff
               (codes a) (codes b) (codes c) (c := Lt)); try done; try lia.
    + intros x y z k. apply nat_compare_trans.
    + intros x y. apply Nat.compare_antisym.
Qed.

Lemma query_resolved_members_sorted_witness :
  read (heap (step initial (QueryResolved fourMembers)))
       (members (step initial (QueryResolved fourMembers)))
  ≡ₚ Group.members fourMembers
  ∧ (∀ i j x y,
       read (heap (step initial (QueryResolved fourMembers)))
            (members (step initial (QueryResolved fourMembers))) !! i = Some x →
       read (heap (step initial (QueryResolved fourMembers)))
            (members (step initial (QueryResolved fourMembers))) !! j = Some y →
       lexCompare (fullName x) (fullName y) < 0 → (i < j)%nat)
  ∧ (∀ same,
       List.filter (λ m, lexCompare (fullName m) (fullName same) =? 0)
         (read (heap (step initial (QueryResolved fourMembers)))
               (members (step initial (QueryResolved fourMembers))))
       = List.filter (λ m, lexCompare (fullName m) (fullName same) =? 0)
           (Group.members fourMembers))
  ∧ (∃ g, groupData (step initial (QueryResolved fourMembers)) = Some g
          ∧ Group.members g ≠ members (step initial (QueryResolved fourMembers))
          ∧ read (heap (step initial (QueryResolved fourMembers))) (Group.members g)
            = Group.members fourMembers)
  ∧ (∀ l, is_Some (heap initial !! l) →
          heap (step initial (QueryResolved fourMembers)) !! l = heap initial !! l).
Proof.
  exact (query_resolved_members_sorted lexCompare tableHasPermission
           sampleCanGiveRole caraEnv initial fourMembers
           lexCompare_antisym lexCompare_trans).
Defined.

(** The sorted copy on the example: the namesakes in the order fetched. *)
Example fourMembers_sorted :
  map GroupUser.user_id
    (read (heap (step initial (QueryResolved fourMembers)))
          (members (step initial (QueryResolved fourMembers))))
  = ["bob"; "cara"; "ola2"; "ola1"].
Proof. vm_compute. reflexivity. Qed.

(** C4 as it is worded fails: of two members with the same name one
    stands before the other, and its name does not compare less. *)
Lemma members_order_counterexample :
  ¬ precedesExactlyWhenLess lexCompare
      (read (heap (step initial (QueryResolved namesakes)))
            (members (step initial (QueryResolved namesakes)))).
Proof.
  assert (read (heap (step initial (QueryResolved namesakes)))
               (members (step initial (QueryResolved namesakes)))
          = [ola1; ola2]) as -> by (vm_compute; reflexivity).
  intros H. destruct (H 0%nat 1%nat ola1 ola2 eq_refl eq_refl) as [H1 _].
  specialize (H1 ltac:(lia)). vm_compute in H1. discriminate.
Qed.

Lemma buttons_gated_and_confirmed_witness :
  requests (step askedToRemoveBob (ConfirmClosed true))
  = DeleteGroupMember "g1" "bob" :: requests askedToRemoveBob
  ∧ ConfirmClosed true = ConfirmClosed true
  ∧ confirmOpen (confirmModal askedToRemoveBob) = true
  ∧ onClose <$> confirmOptions (confirmModal askedToRemoveBob)
    = Some (IfConfirmed RemoveMember).
Proof.
  assert (requests (step askedToRemoveBob (ConfirmClosed true))
          = DeleteGroupMember "g1" "bob" :: requests askedToRemoveBob) as Hr
    by (vm_compute; reflexivity).
  split; [exact Hr|].
  destruct (buttons_gated_and_confirmed lexCompare tableHasPermission
              sampleCanGiveRole caraEnv askedToRemoveBob)
    as (_ & _ & _ & _ & _ & _ & H & _).
  apply (H (ConfirmClosed true) (DeleteGroupMember "g1" "bob") Hr).
  discriminate.
Defined.

Lemma invalidation_on_success_only_witness :
  invalidated (step initial ClickRemoveMember) = invalidated initial
  ∧ invalidated
      (steps initial
         [MutationSettled RemoveMember Fulfilled;
          MutationSettled ChangeRole (Rejected notFound);
          MutationSettled ChangeRole Fulfilled])
    = [("groupLeaderboard", Some "g1"); ("groupLeaderboard", Some "g1")].
Proof.
  destruct (invalidation_on_success_only lexCompare tableHasPermission
              sampleCanGiveRole caraEnv initial) as (_ & H1 & H2).
  split.
  - apply H1. reflexivity.
  - apply H2.
Defined.

(** C9, at the run where the code departs from the claim. Cara, the
    current user, clicks the remove button (or the transfer button) with
    Bob selected, so the button is enabled and the dialog opens. The
    leaderboard is fetched again before she answers, Bob is gone, and the
    callback selects the first member left, Cara herself. Her affirmative
    answer then sends the request with the current user as its target. *)
Theorem confirmed_after_refetch_targets_current_user :
  isCurrentUserSelected caraEnv askedToRemoveBob = false
  ∧ confirmOpen (confirmModal askedToRemoveBob) = true
  ∧ isCurrentUserSelected caraEnv (step askedToRemoveBob bobGone) = true
  ∧ requests (steps askedToRemoveBob [bobGone; ConfirmClosed true])
    = [DeleteGroupMember "g1" (current_user_id (currentUser caraEnv))]
  ∧ requests (steps askedToTransferToBob [bobGone; ConfirmClosed true])
    = [PostTransferGroupOwnership "g1" (current_user_id (currentUser caraEnv))].
Proof. vm_compute. repeat split; reflexivity. Qed.

End ModalRuns.

(** ** The layout *)

Section LayoutFacts.
Import JS LayoutView LayoutExamples.

(** C7, as the code has it: a render that gets past the early returns (no
    silent sign-in and no sign-out redirect under way, not loading, no
    error) with an authenticated state sets the default Authorization
    header to the word Bearer, a space and the access token of the user;
    a render with a state that is not authenticated, or one that returns
    early, leaves the headers as they are. *)
Theorem Layout_sets_bearer_header (auth : AuthState) (common : gmap string string) :
  (activeNavigator auth ≠ Some signinSilent →
   activeNavigator auth ≠ Some signoutRedirect →
   isLoading auth = false →
   error auth = None →
   isAuthenticated auth = true →
   ∀ u, user auth = Some u →
        snd (Layout auth common)
        = <["Authorization" := "Bearer " +:+ access_token u]> common)
  ∧ (isAuthenticated auth = false → snd (Layout auth common) = common)
  ∧ (activeNavigator auth = Some signinSilent
     ∨ activeNavigator auth = Some signoutRedirect
     ∨ isLoading auth = true
     ∨ is_Some (error auth) →
     snd (Layout auth common) = common).
Proof.
  unfold Layout. split; [|split].
  - intros Hs Ho Hl He Ha u Hu. unfold bearer. rewrite Hl, He, Ha, Hu.
    destruct (activeNavigator auth) as [[]|]; simpl; congruence.
  - intros Ha. rewrite Ha.
    destruct (activeNavigator auth) as [[]|]; simpl; repeat case_match; done.
  - intros [H|[H|[H|H]]].
    + by rewrite H.
    + by rewrite H.
    + rewrite H. destruct (activeNavigator auth) as [[]|]; done.
    + rewrite bool_decide_eq_true_2 by done.
      destruct (activeNavigator auth) as [[]|]; simpl; repeat case_match; done.
Qed.

Lemma Layout_sets_bearer_header_witness :
  snd (Layout signedIn ∅) = <["Authorization" := "Bearer token-1"]> ∅.
Proof.
  destruct (Layout_sets_bearer_header signedIn ∅) as [H _].
  apply (H ltac:(discriminate) ltac:(discriminate) eq_refl eq_refl eq_refl
           {| access_token := "token-1" |} eq_refl).
Defined.

(** C7 as it is worded fails: the state is authenticated, a silent
    sign-in is under way, and the render returns before the header. *)
Lemma Layout_header_counterexample :
  isAuthenticated renewing = true
  ∧ snd (Layout renewing ∅) !! "Authorization" ≠ Some "Bearer token-1".
Proof. split; [reflexivity|]. vm_compute. discriminate. Qed.

End LayoutFacts.

(** * Further properties of the stores *)

Section StoresMore.
Import JS Stores Notions.

Lemma chars_append (a b : string) : chars (a +:+ b) = chars a ++ chars b.
Proof. induction a as [|c a IH]; simpl; [done|]. unfold chars in *. simpl. by rewrite IH. Qed.

Lemma includes_chars (s t : string) (c : ascii) :
  includes s t = true → c ∈ chars t → c ∈ chars s.
Proof.
  intros Hi Hc. apply includes_correct in Hi as (pre & post & ->).
  rewrite !chars_append. set_solver.
Qed.

Lemma lower_ascii_not_upper (c : ascii) : isUpperCase (lower_ascii c) = false.
Proof. destruct c as [[] [] [] [] [] [] [] []]; reflexivity. Qed.

Lemma toLocaleLowerCase_no_upper (s : string) (c : ascii) :
  c ∈ chars (toLocaleLowerCase s) → isUpperCase c = false.
Proof.
  induction s as [|d s IH]; unfold chars; simpl.
  - by intros ?%elem_of_nil.
  - intros [->|H]%elem_of_cons; [apply lower_ascii_not_upper | by apply IH].
Qed.

Lemma filter_none {X} (p : X → bool) (l : list X) :
  (∀ x, x ∈ l → p x = false) → List.filter p l = [].
Proof.
  induction l as [|x l IH]; intros H; simpl; [done|].
  rewrite (H x) by set_solver. apply IH. intros y Hy. apply H. set_solver.
Qed.

Lemma filter_all {X} (p : X → bool) (l : list X) :
  (∀ x, x ∈ l → p x = true) → List.filter p l = l.
Proof.
  induction l as [|x l IH]; intros H; simpl; [done|].
  rewrite (H x) by set_solver. f_equal. apply IH. intros y Hy. apply H. set_solver.
Qed.

Lemma filter_sublist_implies {X} (p q : X → bool) (l : list X) :
  (∀ x, p x = true → q x = true) →
  List.filter p l `sublist_of` List.filter q l.
Proof.
  intros Hpq. induction l as [|x l IH]; simpl; [done|].
  destruct (p x) eqn:Ep.
  - rewrite (Hpq x Ep). by constructor.
  - destruct (q x); [by constructor | done].
Qed.

Lemma filter_sublist_self {X} (p : X → bool) (l : list X) :
  List.filter p l `sublist_of` l.
Proof.
  induction l as [|x l IH]; simpl; [done|].
  destruct (p x); by constructor.
Qed.

Lemma includes_empty (s : string) : includes s "" = true.
Proof. destruct s; simpl; by rewrite ?prefix_nil. Qed.

Lemma append_assoc (a b c : string) : (a +:+ b) +:+ c = a +:+ b +:+ c.
Proof.
  induction a as [|x a IH]; [done|].
  change (String x ((a +:+ b) +:+ c) = String x (a +:+ b +:+ c)). by rewrite IH.
Qed.

Lemma includes_trans (s t u : string) :
  includes s t = true → includes t u = true → includes s u = true.
Proof.
  intros (pre & post & ->)%includes_correct (pre' & post' & ->)%includes_correct.
  apply includes_correct. exists (pre +:+ pre'), (post' +:+ post).
  by rewrite !append_assoc.
Qed.

(** X1: a term with a capital letter in it finds nobody, whoever the
    users are: the names are put in lower case, the term is not. *)
Theorem filteredUsers_capital_finds_nobody
    (term : string) (us : list User) (showInactive : option bool)
    (f : option (list PunishmentType)) (c : ascii) :
  c ∈ chars term → isUpperCase c = true →
  filteredUsers term (UArray us) showInactive f = Some [].
Proof.
  intros Hc Hup. unfold filteredUsers. f_equal. apply filter_none.
  intros u _. unfold matches. apply orb_false_iff. split.
  - destruct (includes _ term) eqn:E; [|done].
    pose proof (toLocaleLowerCase_no_upper _ _ (includes_chars _ _ _ E Hc)). congruence.
  - destruct (includes _ term) eqn:E; [|done].
    pose proof (toLocaleLowerCase_no_upper _ _ (includes_chars _ _ _ E Hc)). congruence.
Qed.

Lemma filteredUsers_capital_finds_nobody_witness :
  filteredUsers "bO" (UArray [StoresExamples.anna; StoresExamples.bo]) (Some true) None
  = Some [].
Proof.
  apply (filteredUsers_capital_finds_nobody "bO" _ _ _ "O"%char).
  - unfold chars. simpl. set_solver.
  - reflexivity.
Defined.

(** X2: with the empty term nobody is filtered out by name: the store
    holds the active users, and all the users when inactive ones are
    shown. *)
Theorem filteredUsers_empty_term
    (us : list User) (showInactive : option bool) (f : option (list PunishmentType)) :
  filteredUsers "" (UArray us) showInactive f
  = Some (List.filter (λ user, truthy showInactive || active user) us)
  ∧ filteredUsers "" (UArray us) (Some true) f = Some us.
Proof.
  rewrite !filteredUsers_filter. split; f_equal.
  - apply filter_ext. intros u. unfold visible, matches.
    rewrite !includes_empty. by destruct (truthy showInactive), (active u).
  - apply filter_all. intros u _. unfold visible, matches.
    by rewrite !includes_empty.
Qed.

(** X3: the filtered users are a subsequence of the users, and showing
    inactive users only adds to what is shown without them. *)
Theorem filteredUsers_showInactive_adds
    (term : string) (us : list User) (showInactive : option bool)
    (f : option (list PunishmentType)) :
  ∃ some all,
    filteredUsers term (UArray us) showInactive f = Some some
    ∧ filteredUsers term (UArray us) (Some true) f = Some all
    ∧ some `sublist_of` all
    ∧ all `sublist_of` us.
Proof.
  rewrite !filteredUsers_filter. eexists _, _.
  split; [done|]. split; [done|]. split.
  - apply filter_sublist_implies. intros u. unfold visible. simpl.
    destruct (truthy showInactive); [done|].
    intros [_ H]%andb_true_iff. done.
  - apply filter_sublist_self.
Qed.

(** X4: a longer term narrows the result: if the new term contains the
    old one, the users it finds are a subsequence of those found before. *)
Theorem filteredUsers_longer_term_narrows
    (term term' : string) (us : list User) (showInactive : option bool)
    (f : option (list PunishmentType)) :
  includes term' term = true →
  ∃ before after,
    filteredUsers term (UArray us) showInactive f = Some before
    ∧ filteredUsers term' (UArray us) showInactive f = Some after
    ∧ after `sublist_of` before.
Proof.
  intros Hinc. rewrite !filteredUsers_filter. eexists _, _.
  split; [done|]. split; [done|].
  apply filter_sublist_implies. intros u [Hv Hm]%andb_true_iff.
  apply andb_true_iff. split; [done|].
  unfold matches in *. apply orb_true_iff in Hm as [Hm|Hm]; apply orb_true_iff.
  - left. by apply (includes_trans _ term').
  - right. by apply (includes_trans _ term').
Qed.

Lemma filteredUsers_longer_term_narrows_witness :
  ∃ before after,
    filteredUsers "n" (UArray [StoresExamples.anna; StoresExamples.bo]) (Some true) None
    = Some before
    ∧ filteredUsers "nn" (UArray [StoresExamples.anna; StoresExamples.bo]) (Some true) None
      = Some after
    ∧ after `sublist_of` before.
Proof.
  apply (filteredUsers_longer_term_narrows "n" "nn"). reflexivity.
Defined.

(** X5: [hasCommonElement] holds exactly when some element is in both
    arrays; the order of the arrays does not matter. *)
Theorem hasCommonElement_common {A} `{EqDecision A} (arr1 arr2 : list A) :
  (hasCommonElement arr1 arr2 = true ↔ ∃ x, x ∈ arr1 ∧ x ∈ arr2)
  ∧ hasCommonElement arr1 arr2 = hasCommonElement arr2 arr1.
Proof.
  assert (Hspec : ∀ l1 l2 : list A,
            hasCommonElement l1 l2 = true ↔ ∃ x, x ∈ l1 ∧ x ∈ l2).
  { intros l1 l2. unfold hasCommonElement. rewrite existsb_exists. split.
    - intros (x & Hx%list_elem_of_In & Hb%bool_decide_eq_true). eauto.
    - intros (x & Hx & Hy). exists x. split; [by apply list_elem_of_In|].
      by apply bool_decide_eq_true. }
  split; [apply Hspec|].
  destruct (hasCommonElement arr1 arr2) eqn:E1, (hasCommonElement arr2 arr1) eqn:E2;
    try done.
  - apply Hspec in E1 as (x & ? & ?).
    assert (hasCommonElement arr2 arr1 = true) by (apply Hspec; eauto). congruence.
  - apply Hspec in E2 as (x & ? & ?).
    assert (hasCommonElement arr1 arr2 = true) by (apply Hspec; eauto). congruence.
Qed.

End StoresMore.

Section PersistenceMore.
Import JS Stores.
Context (JSON_stringify : UsersValue → string).
Context (JSON_parse : string → option UsersValue).

Local Abbreviation init := (init JSON_stringify JSON_parse).
Local Abbreviation set := (set JSON_stringify).

Lemma set_other_keys v w k :
  k ≠ "users" → localStorage (set v w) !! k = localStorage w !! k.
Proof.
  intros Hk. unfold Stores.set. destruct (safe_not_equal _ _); [|done].
  simpl. unfold persist. by rewrite lookup_insert_ne.
Qed.

(** X6: evaluating the module and writing to the users store, any number
    of times, touches no entry of the storage other than the one under
    [users]. *)
Theorem users_store_touches_one_key
    (ls : gmap string string) (w0 : Persisted) (vs : list UsersValue) (k : string) :
  init ls = Some w0 →
  k ≠ "users" →
  localStorage (foldl (flip set) w0 vs) !! k = ls !! k.
Proof.
  intros Hinit Hk.
  assert (localStorage w0 !! k = ls !! k) as <-.
  { revert Hinit. unfold Stores.init. destruct (JSON_parse _); intros [= <-].
    simpl. unfold persist. by rewrite lookup_insert_ne. }
  generalize w0. induction vs as [|v vs IH]; intros w; simpl; [done|].
  rewrite IH. by apply set_other_keys.
Qed.

(** X7: on a first visit, with nothing stored under [users], the module
    evaluates, the store is [null], the storage gets the text of [null],
    and the derived store throws for every term and flag, its callback
    calling [filter] on [null]. *)
Theorem first_visit_filteredUsers_throws (ls : gmap string string) :
  ls !! "users" = None →
  JSON_parse "null" = Some UNull →
  ∃ w0, init ls = Some w0
        ∧ store w0 = UNull
        ∧ localStorage w0 !! "users" = Some (JSON_stringify UNull)
        ∧ ∀ term showInactive f, filteredUsers term (store w0) showInactive f = None.
Proof.
  intros Hnone Hnull. unfold Stores.init, getItem. rewrite Hnone. simpl.
  rewrite Hnull. eexists. split; [done|]. simpl.
  split; [done|]. split; [apply lookup_insert_eq | done].
Qed.

End PersistenceMore.

Lemma users_store_touches_one_key_witness :
  Stores.localStorage
    (foldl (flip (Stores.set StoresExamples.sampleStringify))
       {| Stores.store := Stores.UNull;
          Stores.localStorage := {[ "users" := "null"; "theme" := "dark" ]} |}
       [StoresExamples.written; Stores.UNull]) !! "theme"
  = ({[ "theme" := "dark" ]} : gmap string string) !! "theme".
Proof.
  apply (users_store_touches_one_key StoresExamples.sampleStringify
           StoresExamples.sampleParse {[ "theme" := "dark" ]}).
  - reflexivity.
  - discriminate.
Defined.

Lemma first_visit_filteredUsers_throws_witness :
  ∃ w0, Stores.init StoresExamples.sampleStringify StoresExamples.sampleParse ∅ = Some w0
        ∧ Stores.store w0 = Stores.UNull
        ∧ Stores.localStorage w0 !! "users" = Some "null"
        ∧ ∀ term showInactive f,
            Stores.filteredUsers term (Stores.store w0) showInactive f = None.
Proof.
  apply (first_visit_filteredUsers_throws StoresExamples.sampleStringify
           StoresExamples.sampleParse ∅); reflexivity.
Defined.

(** * Further properties of the edit-members modal *)

Section ModalMore.
Import JS Modal.
Context (localeCompare : string → string → Z).
Context (hasPermission : gmap string (list string) → string → string → bool).
Context (canGiveRole :
  list (string * string) → gmap string (list string) → string → string → bool).
Context (env : Env).

Local Abbreviation handle := (handle localeCompare hasPermission canGiveRole env).
Local Abbreviation run := (run localeCompare hasPermission canGiveRole env).
Local Abbreviation render := (render hasPermission env).
Local Abbreviation rolesEffect := (rolesEffect canGiveRole env).
Local Abbreviation compareMembers := (compareMembers localeCompare).

Ltac unfold_handlers :=
  unfold Modal.handle, Modal.onGroupLeaderboard, Modal.rolesEffect,
    Modal.currentUserRoleEffect, Modal.onClickChangeRole,
    Modal.onClickTransferOwnership, Modal.onClickRemoveMember,
    Modal.closeConfirm, Modal.runOnClose, Modal.openConfirm,
    Modal.transferOwnershipMutate, Modal.removeMemberMutate,
    Modal.changeRoleMutate, Modal.mutate,
    Modal.onSuccess, Modal.onError, Modal.spread, Modal.alloc.

Ltac frame := unfold_handlers; simpl; repeat case_match; simpl; try done.

Lemma read_insert_eq (h : gmap nat (list GroupUser.t)) l a :
  read (<[l := a]> h) l = a.
Proof. unfold read. by rewrite lookup_insert_eq. Qed.

(** The person selected once the query has resolved: the first of the
    sorted members with the identifier selected before, or else the
    first of them all. *)
Lemma query_resolved_selected st payload :
  let sorted := sort compareMembers (Group.members payload) in
  selectedPerson (handle st (QueryResolved payload))
  = match List.find
            (λ member, bool_decide (Some (GroupUser.user_id member)
                                    = GroupUser.user_id <$> selectedPerson st))
            sorted with
    | Some p => Some p
    | None => sorted !! 0%nat
    end
  ∧ read (heap (handle st (QueryResolved payload)))
         (members (handle st (QueryResolved payload))) = sorted.
Proof.
  intros sorted.
  destruct (query_resolved_heap localeCompare hasPermission canGiveRole env st payload)
    as (Hh & Hm & _ & _).
  split; [|unfold read; by rewrite Hh, Hm, lookup_insert_eq].
  unfold Modal.handle, alloc.
  set (l := fresh (dom (heap st))).
  set (st1 := setGroupData _ _).
  destruct (rolesEffect_frame canGiveRole env
              (Modal.onGroupLeaderboard localeCompare (Group.with_members payload l) st1))
    as (_ & _ & _ & Hs & _).
  destruct (currentUserRoleEffect_frame env
              (Modal.rolesEffect canGiveRole env
                 (Modal.onGroupLeaderboard localeCompare
                    (Group.with_members payload l) st1)))
    as (_ & _ & _ & Hs').
  rewrite Hs', Hs. unfold Modal.onGroupLeaderboard, spread, alloc, sortInPlace.
  subst st1. simpl. by rewrite !read_insert_eq.
Qed.

(** X8: a refetch keeps the selection by identifier. When the query
    resolves and a fetched member has the identifier of the person
    selected before, the person selected afterwards is a fetched member
    with that identifier; when none has, it is the first member of the
    sorted list; and somebody is selected exactly when the group has a
    member. *)
Theorem refetch_keeps_selection st payload :
  let st' := handle st (QueryResolved payload) in
  (∀ p m, selectedPerson st = Some p →
          m ∈ Group.members payload →
          GroupUser.user_id m = GroupUser.user_id p →
          ∃ q, selectedPerson st' = Some q
               ∧ GroupUser.user_id q = GroupUser.user_id p
               ∧ q ∈ Group.members payload)
  ∧ ((∀ m, m ∈ Group.members payload →
           Some (GroupUser.user_id m) ≠ GroupUser.user_id <$> selectedPerson st) →
     selectedPerson st' = read (heap st') (members st') !! 0%nat)
  ∧ (selectedPerson st' = None ↔ Group.members payload = []).
Proof.
  intros st'. destruct (query_resolved_selected st payload) as [Hsel Hread].
  fold st' in Hsel, Hread. rewrite Hread.
  pose proof (sort_perm compareMembers (Group.members payload)) as Hperm.
  split; [|split].
  - intros p m Hp Hm Hid. rewrite Hsel.
    destruct (List.find _ _) as [q|] eqn:Ef.
    + apply find_some in Ef as [Hq Hf]. apply bool_decide_eq_true in Hf.
      rewrite Hp in Hf. simpl in Hf. injection Hf as Hf.
      exists q. split; [done|]. split; [done|].
      rewrite <- Hperm. by apply list_elem_of_In.
    + exfalso. pose proof (find_none _ _ Ef m) as Hn.
      rewrite bool_decide_eq_false in Hn. apply Hn.
      * apply list_elem_of_In. by rewrite Hperm.
      * rewrite Hp. simpl. by rewrite Hid.
  - intros Hnone. rewrite Hsel.
    destruct (List.find _ _) as [q|] eqn:Ef; [|done].
    apply find_some in Ef as [Hq Hf]. apply bool_decide_eq_true in Hf.
    exfalso. apply (Hnone q); [|done].
    rewrite <- Hperm. by apply list_elem_of_In.
  - rewrite Hsel. split.
    + intros Hn. destruct (List.find _ _); [done|].
      apply lookup_ge_None in Hn. apply Permutation_length in Hperm.
      rewrite Hperm in Hn. by apply length_zero_iff_nil; lia.
    + intros ->. done.
Qed.

Lemma handle_members_frame st ev :
  (∀ payload, ev ≠ QueryResolved payload) →
  heap (handle st ev) = heap st
  ∧ members (handle st ev) = members st
  ∧ (selectedPerson (handle st ev) = selectedPerson st
     ∨ ∃ index p, ev = SelectPerson index
                  ∧ read (heap st) (members st) !! index = Some p
                  ∧ selectedPerson (handle st ev) = Some p).
Proof.
  intros Hev. destruct ev; try (by destruct (Hev group)); try (frame; auto; fail).
  unfold Modal.handle.
  destruct (read (heap st) (members st) !! index) as [p|] eqn:Ep; [|auto].
  case_bool_decide; [auto|].
  destruct (rolesEffect_frame canGiveRole env (setSelectedPerson (Some p) st))
    as (-> & _ & -> & -> & _).
  simpl. split; [done|]. split; [done|]. right. by exists index, p.
Qed.

(** X9: in every state the component reaches, the selected person, if
    there is one, is an element of the array the members state holds. *)
Theorem selected_person_is_listed (evs : list Event) (p : GroupUser.t) :
  selectedPerson (run initial evs) = Some p →
  p ∈ read (heap (run initial evs)) (members (run initial evs)).
Proof.
  unfold Modal.run.
  assert (∀ q, selectedPerson initial = Some q →
               q ∈ read (heap initial) (members initial)) as H by done.
  revert p H. generalize initial.
  induction evs as [|ev evs IH]; intros st p Hst; [apply Hst|].
  simpl. apply IH. clear IH p. intros q Hq.
  destruct ev as [payload|index|role| | | |retval|m r].
  { destruct (query_resolved_selected st payload) as [Hsel ->].
    rewrite Hsel in Hq. destruct (List.find _ _) as [x|] eqn:Ef.
    - injection Hq as <-. apply find_some in Ef as [Hx _]. by apply list_elem_of_In.
    - apply list_elem_of_lookup. eauto. }
  all: match goal with
       | Hq : selectedPerson (Modal.handle _ _ _ _ _ ?ev) = _ |- _ =>
           destruct (handle_members_frame st ev) as (Hh & Hm & Hs);
           [intros ? ?; discriminate|]
       end.
  all: rewrite Hh, Hm; destruct Hs as [Hs|(i & x & _ & Hx & Hs)];
    [apply Hst; by rewrite <- Hs
    |rewrite Hs in Hq; injection Hq as <-; apply list_elem_of_lookup; eauto].
Qed.

(** *** The role list box *)

Lemma rolesEffect_selected st p :
  selectedPerson st = Some p →
  currentRole (rolesEffect st) = default "" (at0 (GroupUser.permissions p))
  ∧ currentRolesOptions (rolesEffect st)
    = map (λ '(roleName, rolePermission),
             {| label := roleName; value := rolePermission;
                disabled :=
                  negb (canGiveRole (default [] (Group.roles <$> groupData st))
                          (default ∅ (Group.permissions <$> groupData st))
                          rolePermission (currentUserRole st))
                  || (bool_decide (GroupUser.user_id p
                                   = current_user_id (currentUser env))
                      && bool_decide (currentUserRole st = "group.owner")) |})
          (default [] (Group.roles <$> groupData st)).
Proof.
  intros Hp. unfold Modal.rolesEffect. rewrite Hp. simpl. split; [done|].
  apply map_ext. intros [roleName rolePermission].
  f_equal. destruct (canGiveRole _ _ _ _), (bool_decide (GroupUser.user_id p = _)),
    (bool_decide (currentUserRole st = _)); done.
Qed.

(** X10: when a person is selected, the first effect shows the first
    permission of that person as the role, and offers the roles of the
    group, in their order, by name and permission; an option is disabled
    exactly when [canGiveRole] refuses it to the role held for the current
    user, or when the person is the current user and that role is the
    owner's. *)
Theorem rolesEffect_offers_group_roles st p :
  selectedPerson st = Some p →
  currentRole (rolesEffect st) = default "" (at0 (GroupUser.permissions p))
  ∧ map (λ o, (label o, value o)) (currentRolesOptions (rolesEffect st))
    = default [] (Group.roles <$> groupData st)
  ∧ ∀ o, o ∈ currentRolesOptions (rolesEffect st) →
         disabled o
         = negb (canGiveRole (default [] (Group.roles <$> groupData st))
                   (default ∅ (Group.permissions <$> groupData st))
                   (value o) (currentUserRole st))
           || (bool_decide (GroupUser.user_id p = current_user_id (currentUser env))
               && bool_decide (currentUserRole st = "group.owner")).
Proof.
  intros Hp. destruct (rolesEffect_selected st p Hp) as [Hr Ho].
  split; [done|]. rewrite Ho. split.
  - rewrite map_map. rewrite <- (map_id (default [] _)) at 2.
    apply map_ext. by intros [? ?].
  - intros o Hin. apply list_elem_of_In, in_map_iff in Hin as ([n v] & <- & _). done.
Qed.


(** *** The buttons and the dialog *)


Lemma handle_confirm_frame st ev :
  match ev with
  | ClickChangeRole | ClickTransferOwnership | ClickRemoveMember
  | ConfirmClosed _ => True
  | _ => confirmModal (handle st ev) = confirmModal st
  end.
Proof. destruct ev; try done; frame. Qed.


(** X14: the notification is written by the settling of a mutation and
    by nothing else: a query that resolves, a selection, a click or a
    dialog that closes leave it as it is. *)
Theorem notification_set_by_settled_mutations st ev :
  notification (handle st ev)
  = match ev with
    | MutationSettled m Fulfilled =>
        Some {| type := success; title := None; text := successText m |}
    | MutationSettled m (Rejected e) =>
        Some {| type := error; title := Some (errorTitle m);
                text := detail (data (response e)) |}
    | _ => notification st
    end.
Proof. destruct ev; frame. Qed.

(** X15: once the query has resolved, the role held for the current user
    is the first permission of the first fetched member with the
    identifier of the current user, and the empty role when the current
    user is not among the fetched members or has no permission. *)
Theorem current_user_role_from_payload st payload :
  currentUserRole (handle st (QueryResolved payload))
  = default ""
      (List.find
         (λ member, bool_decide (GroupUser.user_id member
                                 = current_user_id (currentUser env)))
         (Group.members payload)
       ≫= λ member, at0 (GroupUser.permissions member))
  ∧ ((∀ m, m ∈ Group.members payload →
           GroupUser.user_id m ≠ current_user_id (currentUser env)) →
     currentUserRole (handle st (QueryResolved payload)) = "").
Proof.
  assert (currentUserRole (handle st (QueryResolved payload))
          = roleOfCurrentUser env (handle st (QueryResolved payload))) as Hrole.
  { unfold Modal.handle. destruct (alloc _ _) as [l h].
    unfold Modal.currentUserRoleEffect. done. }
  destruct (query_resolved_heap localeCompare hasPermission canGiveRole env st payload)
    as (Hh & _ & Hg & Hne).
  assert (Heq : currentUserRole (handle st (QueryResolved payload))
                = default ""
                    (List.find
                       (λ member, bool_decide (GroupUser.user_id member
                                               = current_user_id (currentUser env)))
                       (Group.members payload)
                     ≫= λ member, at0 (GroupUser.permissions member))).
  { rewrite Hrole. unfold roleOfCurrentUser. rewrite Hg, Hh. simpl.
    unfold read. rewrite lookup_insert_ne by (intros E; by apply Hne).
    by rewrite lookup_insert_eq. }
  split; [done|]. intros Hnot. rewrite Heq.
  destruct (List.find _ _) as [m|] eqn:Ef; [|done].
  apply find_some in Ef as [Hin Hb]. apply bool_decide_eq_true in Hb.
  by destruct (Hnot m (proj2 (list_elem_of_In _ _) Hin)).
Qed.

(** *** Over whole runs *)

Lemma run_app st evs evs' : run st (evs ++ evs') = run (run st evs) evs'.
Proof. unfold Modal.run. apply foldl_app. Qed.

Lemma run_without_query st evs :
  (∀ ev, ev ∈ evs → Notions.isQueryResolved ev = false) →
  heap (run st evs) = heap st
  ∧ members (run st evs) = members st
  ∧ groupData (run st evs) = groupData st.
Proof.
  revert st. induction evs as [|ev evs IH]; intros st Hevs; [done|].
  change (run st (ev :: evs)) with (run (handle st ev) evs).
  destruct (IH (handle st ev)) as (-> & -> & ->).
  { intros e He. apply Hevs. by apply elem_of_cons; right. }
  assert (∀ payload, ev ≠ QueryResolved payload) as Hne.
  { intros payload ->.
    by specialize (Hevs (QueryResolved payload) (list_elem_of_here _ _)). }
  destruct (handle_members_frame st ev Hne) as (-> & -> & _).
  by destruct (handle_role_frame localeCompare hasPermission canGiveRole env st ev Hne)
    as (_ & -> & _).
Qed.

(** X19: at any time after the query has resolved, whatever the user has
    done since, the members state holds the sorted copy of the members
    last fetched, a rearrangement of them, and the array of the group
    data still holds them in the order fetched. *)
Theorem members_follow_last_fetch (evs evs' : list Event)
    (payload : Group.t (list GroupUser.t)) :
  (∀ ev, ev ∈ evs' → Notions.isQueryResolved ev = false) →
  let st := run initial (evs ++ QueryResolved payload :: evs') in
  read (heap st) (members st) = sort compareMembers (Group.members payload)
  ∧ read (heap st) (members st) ≡ₚ Group.members payload
  ∧ ∃ g, groupData st = Some g
         ∧ Group.members g ≠ members st
         ∧ read (heap st) (Group.members g) = Group.members payload.
Proof.
  intros Hevs st. subst st.
  rewrite run_app.
  change (run (run initial evs) (QueryResolved payload :: evs'))
    with (run (handle (run initial evs) (QueryResolved payload)) evs').
  destruct (run_without_query (handle (run initial evs) (QueryResolved payload)) evs' Hevs)
    as (-> & -> & ->).
  destruct (query_resolved_heap localeCompare hasPermission canGiveRole env
              (run initial evs) payload) as (Hh & Hm & Hg & Hne).
  destruct (query_resolved_selected (run initial evs) payload) as [_ Hread].
  rewrite Hread. split; [done|]. split; [apply sort_perm|].
  rewrite Hg, Hm, Hh. eexists. split; [done|]. simpl. split; [done|].
  unfold read.
  rewrite lookup_insert_ne by (intros E; by apply Hne).
  by rewrite lookup_insert_eq.
Qed.

(** X20: every request the component ever sends is addressed to the
    group selected in the navigation, or to the empty identifier when
    none is selected. *)
Theorem requests_address_selected_group (evs : list Event) (r : Request) :
  r ∈ requests (run initial evs) →
  Notions.requestGroup r = default "" (Group.group_id <$> selectedGroup env).
Proof.
  unfold Modal.run.
  assert (∀ q, q ∈ requests initial →
               Notions.requestGroup q = default "" (Group.group_id <$> selectedGroup env))
    as H by (intros q Hq; by apply elem_of_nil in Hq).
  revert r H. generalize initial.
  induction evs as [|ev evs IH]; intros st r Hst; [apply Hst|].
  simpl. apply IH. clear IH r. intros q Hq.
  destruct (handle_requests localeCompare hasPermission canGiveRole env st ev)
    as [E|[(E & _)|(m & o & E & _)]]; rewrite E in Hq.
  - by apply Hst.
  - apply elem_of_cons in Hq as [->|Hq]; [done | by apply Hst].
  - apply elem_of_cons in Hq as [->|Hq]; [by destruct m | by apply Hst].
Qed.

End ModalMore.

Section ModalMoreRuns.
Import JS Modal ModalExamples MoreExamples.

Lemma refetch_keeps_selection_witness :
  ∃ q, selectedPerson (step loaded (QueryResolved (groupWith [bob; cara]))) = Some q
       ∧ GroupUser.user_id q = GroupUser.user_id bob
       ∧ q ∈ Group.members (groupWith [bob; cara]).
Proof.
  destruct (refetch_keeps_selection lexCompare tableHasPermission sampleCanGiveRole
              caraEnv loaded (groupWith [bob; cara])) as [H _].
  apply (H bob bob); [reflexivity | set_solver | reflexivity].
Defined.

Lemma selected_person_is_listed_witness :
  cara ∈ read (heap (steps initial [QueryResolved (groupWith [cara; bob]);
                                    SelectPerson 1%nat]))
              (members (steps initial [QueryResolved (groupWith [cara; bob]);
                                       SelectPerson 1%nat])).
Proof.
  apply (selected_person_is_listed lexCompare tableHasPermission sampleCanGiveRole
           caraEnv). vm_compute. reflexivity.
Defined.

Lemma rolesEffect_offers_group_roles_witness :
  currentRole (rolesEffect sampleCanGiveRole caraEnv caraPicked) = "group.owner"
  ∧ map (λ o, (label o, value o))
        (currentRolesOptions (rolesEffect sampleCanGiveRole caraEnv caraPicked))
    = [("Leder", "group.owner"); ("Admin", "group.admin"); ("Medlem", "group.member")].
Proof.
  destruct (rolesEffect_offers_group_roles sampleCanGiveRole caraEnv caraPicked cara)
    as (H1 & H2 & _); [vm_compute; reflexivity|].
  split; [exact H1 | exact H2].
Defined.




Lemma current_user_role_from_payload_witness :
  currentUserRole (step loaded (QueryResolved (groupWith [bob]))) = "".
Proof.
  destruct (current_user_role_from_payload lexCompare tableHasPermission
              sampleCanGiveRole caraEnv loaded (groupWith [bob])) as [_ H].
  apply H. intros m Hm. apply list_elem_of_singleton in Hm as ->. discriminate.
Defined.

Lemma members_follow_last_fetch_witness :
  read (heap (steps initial ([QueryResolved (groupWith [bob])]
                             ++ QueryResolved fourMembers
                                :: [SelectPerson 1%nat; ClickRemoveMember])))
       (members (steps initial ([QueryResolved (groupWith [bob])]
                                ++ QueryResolved fourMembers
                                   :: [SelectPerson 1%nat; ClickRemoveMember])))
  ≡ₚ Group.members fourMembers.
Proof.
  destruct (members_follow_last_fetch lexCompare tableHasPermission sampleCanGiveRole
              caraEnv [QueryResolved (groupWith [bob])]
              [SelectPerson 1%nat; ClickRemoveMember] fourMembers) as (_ & H & _).
  - intros ev Hev. repeat (apply elem_of_cons in Hev as [->|Hev]; [reflexivity|]).
    by apply elem_of_nil in Hev.
  - exact H.
Defined.

Lemma requests_address_selected_group_witness :
  Notions.requestGroup (DeleteGroupMember "g1" "bob") = "g1".
Proof.
  apply (requests_address_selected_group lexCompare tableHasPermission
           sampleCanGiveRole caraEnv
           [QueryResolved (groupWith [cara; bob]); ClickRemoveMember; ConfirmClosed true]).
  vm_compute. set_solver.
Defined.

End ModalMoreRuns.

(** * Further properties of the layout *)

Section LayoutMore.
Import JS LayoutView Notions.

Lemma Layout_headers (auth : AuthState) (common : gmap string string) :
  snd (Layout auth common) = common
  ∨ snd (Layout auth common) = <["Authorization" := bearer auth]> common.
Proof.
  unfold Layout. destruct (activeNavigator auth) as [[]|]; simpl;
    repeat case_match; simpl; auto.
Qed.

(** X16: the layout leaves every default header other than
    Authorization as it is, and never removes the Authorization header:
    through any sequence of renders a header that is there stays there,
    and renders with states that are not authenticated, after a sign-out
    for one, leave the headers, the old bearer token included, as they
    are. *)
Theorem Layout_keeps_headers (auths : list AuthState) (common : gmap string string) :
  (∀ k, k ≠ "Authorization" → renders auths common !! k = common !! k)
  ∧ (is_Some (common !! "Authorization") →
     is_Some (renders auths common !! "Authorization"))
  ∧ ((∀ auth, auth ∈ auths → isAuthenticated auth = false) →
     renders auths common = common).
Proof.
  unfold renders. split; [|split].
  - intros k Hk. revert common.
    induction auths as [|a auths IH]; intros common; simpl; [done|].
    rewrite IH. destruct (Layout_headers a common) as [->| ->]; [done|].
    by rewrite lookup_insert_ne.
  - revert common. induction auths as [|a auths IH]; intros common Hc; simpl; [done|].
    apply IH. destruct (Layout_headers a common) as [->| ->]; [done|].
    rewrite lookup_insert_eq. eauto.
  - revert common. induction auths as [|a auths IH]; intros common Hall; simpl; [done|].
    assert (snd (Layout a common) = common) as ->.
    { unfold Layout. rewrite (Hall a) by set_solver.
      destruct (activeNavigator a) as [[]|]; simpl; repeat case_match; done. }
    apply IH. intros b Hb. apply Hall. set_solver.
Qed.

Lemma Layout_keeps_headers_witness :
  renders [LayoutExamples.signedIn; MoreExamples.signedOut] ∅ !! "Authorization"
  = Some "Bearer token-1".
Proof.
  destruct (Layout_keeps_headers [MoreExamples.signedOut]
              (<["Authorization" := "Bearer token-1"]> ∅)) as (_ & _ & H).
  change (renders [LayoutExamples.signedIn; MoreExamples.signedOut] ∅)
    with (renders [MoreExamples.signedOut] (<["Authorization" := "Bearer token-1"]> ∅)).
  rewrite H; [reflexivity|].
  intros auth Ha. apply list_elem_of_singleton in Ha as ->. reflexivity.
Defined.

(** X17: rendering twice with the same state is the same as rendering
    once: the same view, the same headers. *)
Theorem Layout_idempotent (auth : AuthState) (common : gmap string string) :
  Layout auth (snd (Layout auth common)) = Layout auth common.
Proof.
  unfold Layout. destruct (activeNavigator auth) as [[]|]; simpl;
    repeat case_match; simpl; try done; by rewrite insert_insert_eq.
Qed.

(** X18: the page with its outlet is rendered exactly when no silent
    sign-in and no sign-out redirect is under way, the state is not
    loading and there is no error, whether or not the state is
    authenticated; and a state that is authenticated without a user
    object gets the header written with the word undefined for the
    token. *)
Theorem Layout_page_without_authentication (auth : AuthState) (common : gmap string string) :
  (fst (Layout auth common) = Page
   ↔ activeNavigator auth ≠ Some signinSilent
     ∧ activeNavigator auth ≠ Some signoutRedirect
     ∧ isLoading auth = false
     ∧ error auth = None)
  ∧ (fst (Layout auth common) = Page → isAuthenticated auth = true →
     user auth = None →
     snd (Layout auth common) !! "Authorization" = Some "Bearer undefined").
Proof.
  unfold Layout, bearer. split.
  - destruct (activeNavigator auth) as [[]|], (isLoading auth), (error auth);
      simpl; repeat case_match; simpl; split; try done;
      try (intros (? & ? & ? & ?); done).
  - intros Hp Ha Hu. rewrite Ha, Hu in *.
    destruct (activeNavigator auth) as [[]|], (isLoading auth), (error auth);
      simpl in *; try done; by rewrite lookup_insert_eq.
Qed.

Lemma Layout_page_without_authentication_witness :
  fst (Layout MoreExamples.signedOut ∅) = Page
  ∧ snd (Layout
           {| activeNavigator := None; isLoading := false; error := None;
              isAuthenticated := true; user := None |} ∅) !! "Authorization"
    = Some "Bearer undefined".
Proof.
  split.
  - apply (Layout_page_without_authentication MoreExamples.signedOut ∅).
    repeat split; discriminate || reflexivity.
  - apply (Layout_page_without_authentication
             {| activeNavigator := None; isLoading := false; error := None;
                isAuthenticated := true; user := None |} ∅); reflexivity.
Defined.

End LayoutMore.
